(** * OTTO: the stereographic ("little planet") projection engine

    A shallow embedding of the two evaluators of the repository:

    - the raster evaluator, the web worker of [projection-worker.js]
      ([onmessage], [projection], [getPointOnSphere], [axisRotate],
      [getPixOnImg]);
    - the fragment evaluator, the GLSL fragment shader [fsSource] of
      [script.js] ([computeRotationMatrix], [projectToSphere],
      [getPixOnImg], [sampleTexture], [main]) together with the uniforms
      that [WebGLRenderer.render] uploads.

    Numbers.  JavaScript doubles and GLSL [highp float]s are read as real
    numbers: [Math.PI] is [PI], [Math.cos]/[Math.sin]/[Math.acos] are the
    functions of the Standard Library, and rounding errors are not
    represented.  A JavaScript value that is not a finite number ([NaN],
    [Infinity], [undefined]) is [None].  The module [Worker64] repeats the
    arithmetic of the worker's [projection] on binary64 numbers, where the
    rounding matters. *)

From Stdlib Require Import Floats.
From Stdlib Require Import Reals Lra Lia ZArith List Sorted Psatz Machin RNsatz.
From stdpp Require Import base list strings gmap.

#[local] Set Warnings "-inexact-float".
Import ListNotations.

Local Open Scope R_scope.

(** ** Platform functions *)

Definition vec2 : Type := R * R.
Definition vec3 : Type := R * R * R.
Definition vec4 : Type := R * R * R * R.

(** A JavaScript number: [None] is a value that is not a finite real. *)
Definition jsnum : Type := option R.

(** [a / b] on finite JavaScript numbers: a zero divisor gives [NaN] or an
    infinity. *)
Definition js_div (a b : R) : jsnum :=
  if Req_dec_T b 0 then None else Some (a / b).

(** [Math.acos]: [NaN] outside of [[-1, 1]] and on a non-finite argument. *)
Definition Math_acos (x : jsnum) : jsnum :=
  match x with
  | Some v => if Rle_dec (-1) v then if Rle_dec v 1 then Some (acos v) else None else None
  | None => None
  end.

(** The two-argument arctangent of JavaScript ([Math.atan2 (y, x)]) and of
    GLSL ([atan (y, x)]), with values in [[-PI, PI]].  At the origin
    JavaScript returns a zero; GLSL leaves the value open there. *)
Definition atan2 (y x : R) : R :=
  if Rlt_dec 0 x then atan (y / x)
  else if Rlt_dec x 0 then
    if Rle_dec 0 y then atan (y / x) + PI else atan (y / x) - PI
  else if Rlt_dec 0 y then PI / 2
  else if Rlt_dec y 0 then - (PI / 2)
  else 0.

(** [Math.round]: the nearest integer, a half rounded towards +infinity. *)
Definition Math_round (x : R) : Z := Int_part (x + / 2).

(** [a % b] on integers: the remainder has the sign of the dividend, and a
    zero divisor gives [NaN]. *)
Definition js_rem (a b : Z) : option Z :=
  if (b =? 0)%Z then None else Some (Z.rem a b).

(** Storing into a [Uint8ClampedArray]: [undefined] and [NaN] become 0,
    integers are clamped to [0..255]. *)
Definition to_uint8_clamped (v : option Z) : Z :=
  match v with
  | Some b => Z.max 0 (Z.min 255 b)
  | None => 0%Z
  end.

(** Reading a typed array at a number: [undefined] off the array and at
    [NaN]. *)
Definition typed_get (a : list Z) (i : option Z) : option Z :=
  match i with
  | Some k => if (k <? 0)%Z then None else a !! Z.to_nat k
  | None => None
  end.

(** ** The raster evaluator (the worker) *)

Module Worker.

Record ImageData : Type := mkImageData {
  data : list Z;
  width : Z;
  height : Z
}.

Record Params : Type := mkParams {
  w_proj : nat;
  h_proj : nat;
  scale : R;
  alpha : R;
  beta : R;
  gamma : R;
  offset_hor : R;
  offset_ver : R
}.

Inductive message : Type :=
| progress (value : jsnum)
| done (result : list Z).

(** The rows of the matrix, as the array of arrays of the source. *)
Definition mat : Type := vec3 * vec3 * vec3.

Definition radius (p : Params) : R :=
  INR (Nat.min (h_proj p) (w_proj p)) / 10 * scale p.

Definition rot_mat (alpha beta gamma : R) : mat :=
  ( ( cos gamma * cos beta,
      cos gamma * sin beta * sin alpha - sin gamma * cos alpha,
      cos gamma * sin beta * cos alpha + sin gamma * sin alpha ),
    ( sin gamma * cos beta,
      sin gamma * sin beta * sin alpha + cos gamma * cos alpha,
      sin gamma * sin beta * cos alpha - cos gamma * sin alpha ),
    ( - sin beta,
      cos beta * sin alpha,
      cos beta * cos alpha ) ).

(** The denominator is zero only for [x = y = r = 0], where the source
    computes [NaN]; [getPixOnImg] returns [None] for every [r = 0]. *)
Definition getPointOnSphere (point : vec3) (r : R) : vec3 :=
  let '(x, y, z) := point in
  let k := 2 * r ^ 2 / (x ^ 2 + y ^ 2 + r ^ 2) in
  (k * x, k * y, (k - 1) * r).

Definition axisRotate (point : vec3) (rot_mat : mat) : vec3 :=
  let '(p0, p1, p2) := point in
  let '((m00, m01, m02), (m10, m11, m12), (m20, m21, m22)) := rot_mat in
  ( m00 * p0 + m01 * p1 + m02 * p2,
    m10 * p0 + m11 * p1 + m12 * p2,
    m20 * p0 + m21 * p1 + m22 * p2 ).

(** [None] when a component of the returned pair is [NaN]. *)
Definition getPixOnImg (point : vec3) (r : R) (h_img w_img : Z)
  : option (Z * Z) :=
  let '(x, y, z) := point in
  let z := if Rlt_dec r z then r else z in
  match Math_acos (js_div z r) with
  | Some a =>
      let row := a / PI in
      let col := atan2 y x / (2 * PI) + 0.5 in
      match js_rem (Math_round (row * IZR h_img)) h_img,
            js_rem (Math_round (col * IZR w_img)) w_img with
      | Some i, Some j => Some (i, j)
      | _, _ => None
      end
  | None => None
  end.

Definition projection (pix_proj : nat * nat) (r : R) (h_img w_img : Z)
    (h_proj w_proj : nat) (offset_hor offset_ver : R) (rot_mat : mat)
  : option (Z * Z) :=
  let '(row, col) := pix_proj in
  let x := INR row + (offset_ver - 0.5) * INR h_proj in
  let y := INR col + (offset_hor - 0.5) * INR w_proj in
  let z := 0 in
  let Q := (x, y, z) in
  let P := getPointOnSphere Q r in
  let P := axisRotate P rot_mat in
  getPixOnImg P r h_img w_img.

(** [imgIndex] of the inner loop. *)
Definition imgIndex (imageData : ImageData) (pix_img : option (Z * Z))
  : option Z :=
  match pix_img with
  | Some (i, j) => Some ((i * width imageData + j) * 4)%Z
  | None => None
  end.

Definition index_plus (i : option Z) (c : Z) : option Z :=
  match i with
  | Some k => Some (k + c)%Z
  | None => None
  end.

(** The body of the inner loop of [processChunk]: the four stores. *)
Definition copyPixel (imageData : ImageData) (p : Params) (r : R)
    (rot_mat : mat) (y x : nat) (result : list Z) : list Z :=
  let pix_img :=
    projection (y, x) r (height imageData) (width imageData)
      (h_proj p) (w_proj p) (offset_hor p) (offset_ver p) rot_mat in
  let index := ((y * w_proj p + x) * 4)%nat in
  let imgIndex := imgIndex imageData pix_img in
  let src := data imageData in
  let result := <[index := to_uint8_clamped (typed_get src imgIndex)]> result in
  let result :=
    <[(index + 1)%nat := to_uint8_clamped (typed_get src (index_plus imgIndex 1))]> result in
  let result :=
    <[(index + 2)%nat := to_uint8_clamped (typed_get src (index_plus imgIndex 2))]> result in
  <[(index + 3)%nat := to_uint8_clamped (typed_get src (index_plus imgIndex 3))]> result.

(** [for (let x = 0; x < w_proj; x++)] *)
Definition processRow (imageData : ImageData) (p : Params) (r : R)
    (rot_mat : mat) (result : list Z) (y : nat) : list Z :=
  fold_left (fun res x => copyPixel imageData p r rot_mat y x res)
    (seq 0 (w_proj p)) result.

(** The state of one evaluation: the result buffer and the messages
    posted so far, the oldest first. *)
Definition state : Type := list Z * list message.

Definition processChunk (imageData : ImageData) (p : Params) (r : R)
    (rot_mat : mat) (startY endY : nat) (st : state) : state :=
  let '(result, posted) := st in
  let result :=
    fold_left (processRow imageData p r rot_mat)
      (seq startY (endY - startY)) result in
  (result, posted ++ [progress (js_div (INR endY) (INR (h_proj p)))]).

(** The arguments of the ten calls of [processChunk], in order. *)
Definition chunks (h_proj : nat) : list (nat * nat) :=
  let chunkSize := (h_proj / 10)%nat in
  map (fun i : nat =>
         let startY := (i * chunkSize)%nat in
         let endY := if (i =? 9)%nat then h_proj else ((i + 1) * chunkSize)%nat in
         (startY, endY))
      (seq 0 10).

Definition run (imageData : ImageData) (p : Params) : state :=
  let r := radius p in
  let rot_mat := rot_mat (alpha p) (beta p) (gamma p) in
  let result := replicate (w_proj p * h_proj p * 4) 0%Z in
  fold_left (fun st '(startY, endY) =>
               processChunk imageData p r rot_mat startY endY st)
    (chunks (h_proj p)) (result, []).

(** The messages one request posts, in order. *)
Definition onmessage (imageData : ImageData) (p : Params) : list message :=
  let '(result, posted) := run imageData p in
  posted ++ [done result].

End Worker.

(** ** The fragment evaluator (the shader) *)

Module Shader.

(** The uniforms of [fsSource]; [uSampler] is read through [texture2D]. *)
Record Uniforms : Type := mkUniforms {
  uSampler : vec2 -> vec4;
  uResolution : vec2;
  uScale : R;
  uRotation : vec3;
  uOffset : vec2;
  uRadius : R
}.

(** [const float PI] and [const float TWO_PI], as written in the shader. *)
Definition PI : R := 3.14159265359.
Definition TWO_PI : R := 6.28318530718.

(** A GLSL [mat3] is three columns. *)
Definition mat3 : Type := vec3 * vec3 * vec3.

(** The constructor [mat3 (a, b, c, d, e, f, g, h, i)] of GLSL fills the
    matrix column by column: the first three scalars are the first
    column. *)
Definition mat3_of_floats (a b c d e f g h i : R) : mat3 :=
  ((a, b, c), (d, e, f), (g, h, i)).

(** [m * v] of GLSL, a matrix times a column vector: the combination of
    the columns of [m] with the components of [v]. *)
Definition mat3_mul_vec3 (m : mat3) (v : vec3) : vec3 :=
  let '((c00, c01, c02), (c10, c11, c12), (c20, c21, c22)) := m in
  let '(vx, vy, vz) := v in
  ( c00 * vx + c10 * vy + c20 * vz,
    c01 * vx + c11 * vy + c21 * vz,
    c02 * vx + c12 * vy + c22 * vz ).

Definition clamp (x minVal maxVal : R) : R := Rmin (Rmax x minVal) maxVal.

Definition vec4_add (a b : vec4) : vec4 :=
  let '(a0, a1, a2, a3) := a in
  let '(b0, b1, b2, b3) := b in
  (a0 + b0, a1 + b1, a2 + b2, a3 + b3).

Definition vec4_div (a : vec4) (s : R) : vec4 :=
  let '(a0, a1, a2, a3) := a in
  (a0 / s, a1 / s, a2 / s, a3 / s).

Definition Rltb (a b : R) : bool := if Rlt_dec a b then true else false.

Definition computeRotationMatrix (rotation : vec3) : mat3 :=
  let '(rx, ry, rz) := rotation in
  let cosA := cos rx in
  let sinA := sin rx in
  let cosB := cos ry in
  let sinB := sin ry in
  let cosG := cos rz in
  let sinG := sin rz in
  mat3_of_floats
    (cosG * cosB)
    (cosG * sinB * sinA - sinG * cosA)
    (cosG * sinB * cosA + sinG * sinA)
    (sinG * cosB)
    (sinG * sinB * sinA + cosG * cosA)
    (sinG * sinB * cosA - cosG * sinA)
    (- sinB)
    (cosB * sinA)
    (cosB * cosA).

Definition projectToSphere (u : Uniforms) (pixel : vec2) : vec3 :=
  let '(px, py) := pixel in
  let '(ox, oy) := uOffset u in
  let '(resx, resy) := uResolution u in
  let adjusted := (px + (ox - 0.5) * resx, py + (oy - 0.5) * resy) in
  let r := Rmin resx resy / 10 * uScale u in
  let '(ax, ay) := adjusted in
  let k := 2 * r * r / ((ax * ax + ay * ay) + r * r) in
  (k * ax, k * ay, (k - 1) * r).

(** The result is [(col, row)]. *)
Definition getPixOnImg (u : Uniforms) (point : vec3) : vec2 :=
  let r := uRadius u in
  let '(px, py, pz) := point in
  let pz := clamp pz (- r) r in
  let row := acos (pz / r) / PI in
  let col := atan2 py px / TWO_PI + 0.5 in
  (col, row).

(** [sampleTexture]: the two loops over [SAMPLES = 8]. *)
Definition SAMPLES : nat := 8.
Definition STEP : R := 1 / INR SAMPLES.

Definition sampleTexture (u : Uniforms) (coord : vec2) : vec4 :=
  let '(cx, cy) := coord in
  let '(resx, resy) := uResolution u in
  let color :=
    fold_left (fun color i =>
      fold_left (fun color j =>
        let offset := (INR i * STEP - 0.5, INR j * STEP - 0.5) in
        let sampleCoord := (cx + fst offset / resx, cy + snd offset / resy) in
        vec4_add color (uSampler u sampleCoord))
        (seq 0 SAMPLES) color)
      (seq 0 SAMPLES) (0, 0, 0, 0) in
  vec4_div color (INR (SAMPLES * SAMPLES)).

(** The coordinate [imgCoord] that [main] computes for a fragment. *)
Definition imgCoord (u : Uniforms) (vTextureCoord : vec2) : vec2 :=
  let '(tx, ty) := vTextureCoord in
  let '(resx, resy) := uResolution u in
  let pixCoord := (tx * resx, ty * resy) in
  let spherePoint := projectToSphere u pixCoord in
  let rotMat := computeRotationMatrix (uRotation u) in
  let rotatedPoint := mat3_mul_vec3 rotMat spherePoint in
  getPixOnImg u rotatedPoint.

(** The test of the [if] of [main]:
    [any (lessThan (imgCoord, vec2 (0.0))) || any (greaterThan (imgCoord, vec2 (1.0)))]. *)
Definition out_of_range (c : vec2) : bool :=
  let '(cx, cy) := c in
  (Rltb cx 0 || Rltb cy 0) || (Rltb 1 cx || Rltb 1 cy).

(** [main]: [None] is [discard], [Some c] is [gl_FragColor = c]. *)
Definition main (u : Uniforms) (vTextureCoord : vec2) : option vec4 :=
  let imgCoord := imgCoord u vTextureCoord in
  if out_of_range imgCoord then None
  else Some (sampleTexture u imgCoord).

(** The uniforms [WebGLRenderer.render] uploads for a canvas of the given
    size. *)
Definition render (canvas_width canvas_height : nat) (image : vec2 -> vec4)
    (scale alpha beta gamma offsetHor offsetVer : R) : Uniforms :=
  {| uSampler := image;
     uResolution := (INR canvas_width, INR canvas_height);
     uScale := scale;
     uRotation := (alpha, beta, gamma);
     uOffset := (offsetHor, offsetVer);
     uRadius := INR (Nat.min canvas_height canvas_width) / 10 * scale |}.

End Shader.

(** ** The formulas of the specification *)

Module Spec.

(** Step 4 of the projection, as the specification writes it:
    [sourceRow = round (acos (z / r) / PI) mod sourceHeight] and
    [sourceCol = round (atan2 (y, x) / (2 PI) + 0.5) mod sourceWidth]. *)
Definition sourceRow (z r : R) (sourceHeight : Z) : Z :=
  (Math_round (acos (z / r) / PI) mod sourceHeight)%Z.

Definition sourceCol (x y : R) (sourceWidth : Z) : Z :=
  (Math_round (atan2 y x / (2 * PI) + 0.5) mod sourceWidth)%Z.

(** The elementary rotations of the Euler composition Z(gamma) Y(beta)
    X(alpha), as rows. *)
Definition rot_x (a : R) : Worker.mat :=
  ((1, 0, 0), (0, cos a, - sin a), (0, sin a, cos a)).

Definition rot_y (b : R) : Worker.mat :=
  ((cos b, 0, sin b), (0, 1, 0), (- sin b, 0, cos b)).

Definition rot_z (g : R) : Worker.mat :=
  ((cos g, - sin g, 0), (sin g, cos g, 0), (0, 0, 1)).

Definition identity : Worker.mat := ((1, 0, 0), (0, 1, 0), (0, 0, 1)).

Definition transpose (m : Worker.mat) : Worker.mat :=
  let '((m00, m01, m02), (m10, m11, m12), (m20, m21, m22)) := m in
  ((m00, m10, m20), (m01, m11, m21), (m02, m12, m22)).

Definition mat_mul (a b : Worker.mat) : Worker.mat :=
  let '((a00, a01, a02), (a10, a11, a12), (a20, a21, a22)) := a in
  let '((b00, b01, b02), (b10, b11, b12), (b20, b21, b22)) := b in
  ( ( a00 * b00 + a01 * b10 + a02 * b20,
      a00 * b01 + a01 * b11 + a02 * b21,
      a00 * b02 + a01 * b12 + a02 * b22 ),
    ( a10 * b00 + a11 * b10 + a12 * b20,
      a10 * b01 + a11 * b11 + a12 * b21,
      a10 * b02 + a11 * b12 + a12 * b22 ),
    ( a20 * b00 + a21 * b10 + a22 * b20,
      a20 * b01 + a21 * b11 + a22 * b21,
      a20 * b02 + a21 * b12 + a22 * b22 ) ).

(** The inverse rotation: the negated angles, composed in the reverse
    order. *)
Definition inverse_rotation (alpha beta gamma : R) : Worker.mat :=
  mat_mul (rot_x (- alpha)) (mat_mul (rot_y (- beta)) (rot_z (- gamma))).

End Spec.

(** ** The arithmetic of the worker's [projection] in binary64 *)

Module Worker64.

Local Open Scope float_scope.

Definition vec3 : Type := float * float * float.
Definition mat : Type := vec3 * vec3 * vec3.

(** [Math.min] on two numbers. *)
Definition Math_min (a b : float) : float := if a <? b then a else b.

Definition radius (h_proj w_proj scale : float) : float :=
  Math_min h_proj w_proj / 10 * scale.

(** [rot_mat]; [Math.cos] and [Math.sin] are library functions, so their
    values at the three angles are arguments. *)
Definition rot_mat (cos_alpha sin_alpha cos_beta sin_beta cos_gamma sin_gamma : float)
  : mat :=
  ( ( cos_gamma * cos_beta,
      cos_gamma * sin_beta * sin_alpha - sin_gamma * cos_alpha,
      cos_gamma * sin_beta * cos_alpha + sin_gamma * sin_alpha ),
    ( sin_gamma * cos_beta,
      sin_gamma * sin_beta * sin_alpha + cos_gamma * cos_alpha,
      sin_gamma * sin_beta * cos_alpha - cos_gamma * sin_alpha ),
    ( - sin_beta,
      cos_beta * sin_alpha,
      cos_beta * cos_alpha ) ).

(** [x ** 2] is the product [x * x]. *)
Definition getPointOnSphere (point : vec3) (r : float) : vec3 :=
  let '(x, y, z) := point in
  let k := 2 * (r * r) / (x * x + y * y + r * r) in
  (k * x, k * y, (k - 1) * r).

Definition axisRotate (point : vec3) (rot_mat : mat) : vec3 :=
  let '(p0, p1, p2) := point in
  let '((m00, m01, m02), (m10, m11, m12), (m20, m21, m22)) := rot_mat in
  ( m00 * p0 + m01 * p1 + m02 * p2,
    m10 * p0 + m11 * p1 + m12 * p2,
    m20 * p0 + m21 * p1 + m22 * p2 ).

(** The point [projection] passes to [getPixOnImg]. *)
Definition projection_point (pix_proj : float * float) (r h_proj w_proj : float)
    (offset_hor offset_ver : float) (rot_mat : mat) : vec3 :=
  let '(row, col) := pix_proj in
  let x := row + (offset_ver - 0.5) * h_proj in
  let y := col + (offset_hor - 0.5) * w_proj in
  let z := 0 in
  let Q := (x, y, z) in
  let P := getPointOnSphere Q r in
  axisRotate P rot_mat.

(** The argument [z / r] of [Math.acos] in [getPixOnImg], after
    [if (z > r) z = r]. *)
Definition acos_argument (point : vec3) (r : float) : float :=
  let '(x, y, z) := point in
  let z := if r <? z then r else z in
  z / r.

(** [Math.acos] returns [NaN] exactly outside of [[-1, 1]] (and on
    [NaN]); the row [Math.round (row * h_img) % h_img] is then [NaN]. *)
Definition Math_acos_NaN (v : float) : bool := negb ((-1 <=? v) && (v <=? 1)).

End Worker64.

(** ** Derived notions used in the statements *)

(** The state of the worker after the first [n] calls of [processChunk]. *)
Definition after_bands (imageData : Worker.ImageData) (p : Worker.Params) (n : nat)
  : Worker.state :=
  fold_left (fun st '(startY, endY) =>
               Worker.processChunk imageData p (Worker.radius p)
                 (Worker.rot_mat (Worker.alpha p) (Worker.beta p) (Worker.gamma p))
                 startY endY st)
    (take n (Worker.chunks (Worker.h_proj p)))
    (replicate (Worker.w_proj p * Worker.h_proj p * 4) 0%Z, []).

(** The row at which the [n]-th of the ten bands ends, [endY] of the call
    [i = n - 1]; no band has been processed for [n = 0]. *)
Definition band_end (h_proj n : nat) : nat :=
  if (10 <=? n)%nat then h_proj else (n * (h_proj / 10))%nat.

(** The byte the per-pixel copy stores in channel [c] of the output pixel
    [(y, x)]. *)
Definition copied_byte (imageData : Worker.ImageData) (p : Worker.Params)
    (y x c : nat) : Z :=
  to_uint8_clamped
    (typed_get (Worker.data imageData)
       (Worker.index_plus
          (Worker.imgIndex imageData
             (Worker.projection (y, x) (Worker.radius p)
                (Worker.height imageData) (Worker.width imageData)
                (Worker.h_proj p) (Worker.w_proj p)
                (Worker.offset_hor p) (Worker.offset_ver p)
                (Worker.rot_mat (Worker.alpha p) (Worker.beta p) (Worker.gamma p))))
          (Z.of_nat c))).

(** A source image of one colour. *)
Definition solid_image (pixel : list Z) (w h : nat) : Worker.ImageData :=
  {| Worker.data := concat (replicate (w * h) pixel);
     Worker.width := Z.of_nat w;
     Worker.height := Z.of_nat h |}.

Definition red : list Z := [255; 0; 0; 255]%Z.

(** The concrete scenario: an 800 x 600 output, [scale = 1], no rotation,
    centred offsets. *)
Definition scenario_params : Worker.Params :=
  {| Worker.w_proj := 800; Worker.h_proj := 600; Worker.scale := 1;
     Worker.alpha := 0; Worker.beta := 0; Worker.gamma := 0;
     Worker.offset_hor := 0.5; Worker.offset_ver := 0.5 |}.

Definition vec4_scale (s : R) (a : vec4) : vec4 :=
  let '(a0, a1, a2, a3) := a in (s * a0, s * a1, s * a2, s * a3).

(** The pixels stored before the loops reach the pixel [(Y, X)]. *)
Definition stored_before (Y X y x : nat) : Prop :=
  (y < Y \/ (y = Y /\ x < X))%nat.

(** The loop invariant of the worker: the buffer has its full size and holds
    the copied bytes of the pixels stored so far. *)
Definition buffer_inv (imageData : Worker.ImageData) (p : Worker.Params)
    (Y X : nat) (result : list Z) : Prop :=
  length result = (Worker.w_proj p * Worker.h_proj p * 4)%nat
  /\ forall y x c,
       stored_before Y X y x -> (x < Worker.w_proj p)%nat -> (c < 4)%nat ->
       result !! ((y * Worker.w_proj p + x) * 4 + c)%nat
       = Some (copied_byte imageData p y x c).

(** The pixels the loops have not reached yet still hold the zeros of the
    new buffer. *)
Definition untouched_after (p : Worker.Params) (Y X : nat) (result : list Z) : Prop :=
  forall y x c,
    ~ stored_before Y X y x ->
    (y < Worker.h_proj p)%nat -> (x < Worker.w_proj p)%nat -> (c < 4)%nat ->
    result !! ((y * Worker.w_proj p + x) * 4 + c)%nat = Some 0%Z.

(** A list of bands that starts at [s], ends at [e] and leaves no gap. *)
Inductive chained : nat -> list (nat * nat) -> nat -> Prop :=
| chained_nil s : chained s [] s
| chained_cons s m e l :
    (s <= m)%nat -> chained m l e -> chained s ((s, m) :: l) e.

(** The ordering of the notifications of one evaluation: finite progress
    values, strictly increasing and in [(0, 1]], followed by the one
    completion message. *)
Definition progress_ordering (posted : list Worker.message) : Prop :=
  exists (values : list R) (result : list Z),
    posted = map (fun v => Worker.progress (Some v)) values ++ [Worker.done result]
    /\ StronglySorted Rlt values
    /\ Forall (fun v => 0 < v <= 1) values.

(** Every channel of a colour lies between [lo] and [hi]. *)
Definition vec4_within (lo hi : R) (v : vec4) : Prop :=
  let '(v0, v1, v2, v3) := v in
  (lo <= v0 <= hi /\ lo <= v1 <= hi) /\ (lo <= v2 <= hi /\ lo <= v3 <= hi).

(** A texture whose colour is an affine function of the coordinate. *)
Definition affine_texture (base dx dy : vec4) (coord : vec2) : vec4 :=
  Shader.vec4_add base
    (Shader.vec4_add (vec4_scale (fst coord) dx) (vec4_scale (snd coord) dy)).

(** ** The texture cache of [WebGLRenderer] *)

Module Renderer.

(** The textures of the WebGL context: the live texture objects, the number
    of objects created so far, and the image sources passed to
    [texImage2D], the oldest first.  [createTexture] is taken to return a new
    object (the context is not lost). *)
Record GL : Type := mkGL {
  textures : gset nat;
  created : nat;
  uploads : list string
}.

Definition createTexture (g : GL) : nat * GL :=
  (created g,
   {| textures := {[created g]} ∪ textures g;
      created := S (created g);
      uploads := uploads g |}).

Definition texImage2D (src : string) (g : GL) : GL :=
  {| textures := textures g; created := created g; uploads := uploads g ++ [src] |}.

Definition deleteTexture (texture : nat) (g : GL) : GL :=
  {| textures := textures g ∖ {[texture]};
     created := created g;
     uploads := uploads g |}.

(** The fields of the renderer that [loadTexture] and [destroy] use; the
    cache is keyed by [image.src]. *)
Record t : Type := mkRenderer {
  textureCache : gmap string nat;
  gl : GL
}.

(** The state the constructor leaves. *)
Definition new : t :=
  {| textureCache := ∅; gl := {| textures := ∅; created := 0; uploads := [] |} |}.

Definition loadTexture (src : string) (r : t) : nat * t :=
  match textureCache r !! src with
  | Some texture => (texture, r)
  | None =>
      let '(texture, g) := createTexture (gl r) in
      let g := texImage2D src g in
      (texture, {| textureCache := <[src := texture]> (textureCache r); gl := g |})
  end.

(** [destroy]: every cached texture is deleted, then the cache is
    cleared. *)
Definition destroy (r : t) : t :=
  {| textureCache := ∅;
     gl := foldr (fun entry g => deleteTexture (snd entry) g) (gl r)
             (map_to_list (textureCache r)) |}.

(** The images of a sequence of [render] calls, loaded in order. *)
Definition loadAll (srcs : list string) (r : t) : t :=
  fold_left (fun r src => snd (loadTexture src r)) srcs r.

End Renderer.

(** ** [throttle] *)

Module Throttle.

(** The closure [throttle (func, limit)] returns: its flag, the timeouts it
    has set that have not fired yet, and the arguments [func] has been
    applied to, the oldest first. *)
Record state (A : Type) : Type := mkState {
  inThrottle : bool;
  timers : nat;
  applied : list A
}.

Arguments mkState {A} _ _ _.
Arguments inThrottle {A} _.
Arguments timers {A} _.
Arguments applied {A} _.

(** [let inThrottle;] is [undefined], which is false in a test. *)
Definition init {A : Type} : state A :=
  {| inThrottle := false; timers := 0; applied := [] |}.

(** A call of the returned function. *)
Definition call {A : Type} (args : A) (st : state A) : state A :=
  if inThrottle st then st
  else {| inThrottle := true; timers := S (timers st); applied := applied st ++ [args] |}.

(** A timeout set by the closure fires: [inThrottle = false].  Without a
    pending timeout nothing happens. *)
Definition timeout {A : Type} (st : state A) : state A :=
  match timers st with
  | O => st
  | S n => {| inThrottle := false; timers := n; applied := applied st |}
  end.

Inductive event (A : Type) : Type :=
| Call (args : A)
| Timeout.

Arguments Call {A} _.
Arguments Timeout {A}.

Definition step {A : Type} (st : state A) (e : event A) : state A :=
  match e with
  | Call args => call args st
  | Timeout => timeout st
  end.

Definition run {A : Type} (events : list (event A)) (st : state A) : state A :=
  fold_left step events st.

Definition calls {A : Type} (events : list (event A)) : list A :=
  flat_map (fun e => match e with Call args => [args] | Timeout => [] end) events.

Definition timeouts {A : Type} (events : list (event A)) : nat :=
  length (flat_map (fun e => match e with Timeout => [tt] | Call _ => [] end) events).

End Throttle.

(** The textures alive are the cached ones, each created by the context;
    the uploaded images are the cached keys, each uploaded once. *)
Definition cache_inv (r : Renderer.t) : Prop :=
  (forall texture, texture ∈ Renderer.textures (Renderer.gl r) <->
                   exists src, Renderer.textureCache r !! src = Some texture)
  /\ (forall texture, texture ∈ Renderer.textures (Renderer.gl r) ->
                      (texture < Renderer.created (Renderer.gl r))%nat)
  /\ (forall src, src ∈ Renderer.uploads (Renderer.gl r) <->
                  is_Some (Renderer.textureCache r !! src))
  /\ NoDup (Renderer.uploads (Renderer.gl r)).

(** ** The page of the worker: [updateProjection] *)

Module WorkerPage.

(** The variables of the page that the update uses, the times of the
    requests posted to the worker (the newest first) and the number of
    requests whose [done] message has not arrived yet. *)
Record state : Type := mkState {
  isProcessing : bool;
  cachedImageData : bool;
  lastRenderTime : R;
  animationFrames : nat;
  posted : list R;
  outstanding : nat
}.

Definition frameInterval : R := 1000 / 30.

Definition init : state :=
  {| isProcessing := false; cachedImageData := false; lastRenderTime := 0;
     animationFrames := 0; posted := []; outstanding := 0 |}.

(** The function passed to [throttle], run at the time [currentTime]
    ([performance.now ()]). *)
Definition updateProjection (currentTime : R) (st : state) : state :=
  if Rlt_dec (currentTime - lastRenderTime st) frameInterval then
    {| isProcessing := isProcessing st; cachedImageData := cachedImageData st;
       lastRenderTime := lastRenderTime st;
       animationFrames := S (animationFrames st);
       posted := posted st; outstanding := outstanding st |}
  else if isProcessing st || negb (cachedImageData st) then st
  else
    {| isProcessing := true; cachedImageData := cachedImageData st;
       lastRenderTime := currentTime;
       animationFrames := animationFrames st;
       posted := currentTime :: posted st; outstanding := S (outstanding st) |}.

(** [worker.onmessage] on a message of type [done]; without a request
    under way no such message arrives. *)
Definition onDone (st : state) : state :=
  match outstanding st with
  | O => st
  | S n =>
      {| isProcessing := false; cachedImageData := cachedImageData st;
         lastRenderTime := lastRenderTime st;
         animationFrames := animationFrames st;
         posted := posted st; outstanding := n |}
  end.

(** [img.onload]: the pixel data is cached. *)
Definition onImageLoaded (st : state) : state :=
  {| isProcessing := isProcessing st; cachedImageData := true;
     lastRenderTime := lastRenderTime st;
     animationFrames := animationFrames st;
     posted := posted st; outstanding := outstanding st |}.

Inductive event : Type :=
| Update (currentTime : R)
| Done
| Progress
| ImageLoaded.

Definition step (st : state) (e : event) : state :=
  match e with
  | Update currentTime => updateProjection currentTime st
  | Done => onDone st
  | Progress => st
  | ImageLoaded => onImageLoaded st
  end.

Definition run (events : list event) : state := fold_left step events init.

End WorkerPage.

(** ** The adjust buttons and the keyboard: the value written to a slider *)

(** [Math.max (parseFloat (input.min), Math.min (parseFloat (input.max), value))],
    on numbers. *)
Definition clampToRange (min max value : R) : R := Rmax min (Rmin max value).

(** The value [startAdjust] writes to the slider. *)
Definition startAdjust (min max value adjust : R) : R :=
  clampToRange min max (value + adjust).

(** ** The page of the renderer: [requestUpdate], [updateProjection] and
    [handleSliderChange] *)

Module Page.

(** The two functions the page passes to [requestAnimationFrame]:
    [updateProjection] and the arrow function of [handleSliderChange]. *)
Inductive callback : Type :=
| UpdateProjection
| SliderFrame.

Global Instance callback_eq_dec : EqDecision callback.
Proof. solve_decision. Defined.

(** The variables of the page, the animation frames requested and not yet
    run (the oldest first), the next handle of [requestAnimationFrame]
    (handles are positive) and the number of calls of [renderer.render]. *)
Record state : Type := mkState {
  isProcessing : bool;
  pendingUpdate : bool;
  animationFrameId : option nat;
  rafPending : bool;
  imgComplete : bool;
  frames : list (nat * callback);
  nextFrame : nat;
  renders : nat
}.

Definition init : state :=
  {| isProcessing := false; pendingUpdate := false; animationFrameId := None;
     rafPending := false; imgComplete := false; frames := []; nextFrame := 1;
     renders := 0 |}.

Definition requestAnimationFrame (cb : callback) (st : state) : nat * state :=
  (nextFrame st,
   {| isProcessing := isProcessing st; pendingUpdate := pendingUpdate st;
      animationFrameId := animationFrameId st; rafPending := rafPending st;
      imgComplete := imgComplete st;
      frames := frames st ++ [(nextFrame st, cb)];
      nextFrame := S (nextFrame st); renders := renders st |}).

Definition cancelAnimationFrame (id : nat) (st : state) : state :=
  {| isProcessing := isProcessing st; pendingUpdate := pendingUpdate st;
     animationFrameId := animationFrameId st; rafPending := rafPending st;
     imgComplete := imgComplete st;
     frames := filter (fun f => fst f <> id) (frames st);
     nextFrame := nextFrame st; renders := renders st |}.

Definition set_isProcessing (b : bool) (st : state) : state :=
  {| isProcessing := b; pendingUpdate := pendingUpdate st;
     animationFrameId := animationFrameId st; rafPending := rafPending st;
     imgComplete := imgComplete st; frames := frames st;
     nextFrame := nextFrame st; renders := renders st |}.

Definition set_pendingUpdate (b : bool) (st : state) : state :=
  {| isProcessing := isProcessing st; pendingUpdate := b;
     animationFrameId := animationFrameId st; rafPending := rafPending st;
     imgComplete := imgComplete st; frames := frames st;
     nextFrame := nextFrame st; renders := renders st |}.

Definition set_animationFrameId (id : nat) (st : state) : state :=
  {| isProcessing := isProcessing st; pendingUpdate := pendingUpdate st;
     animationFrameId := Some id; rafPending := rafPending st;
     imgComplete := imgComplete st; frames := frames st;
     nextFrame := nextFrame st; renders := renders st |}.

Definition set_rafPending (b : bool) (st : state) : state :=
  {| isProcessing := isProcessing st; pendingUpdate := pendingUpdate st;
     animationFrameId := animationFrameId st; rafPending := b;
     imgComplete := imgComplete st; frames := frames st;
     nextFrame := nextFrame st; renders := renders st |}.

Definition set_imgComplete (b : bool) (st : state) : state :=
  {| isProcessing := isProcessing st; pendingUpdate := pendingUpdate st;
     animationFrameId := animationFrameId st; rafPending := rafPending st;
     imgComplete := b; frames := frames st;
     nextFrame := nextFrame st; renders := renders st |}.

(** [try { renderer.render (params) } catch ...]: one call of [render],
    which returns or throws, and requests no update. *)
Definition render (st : state) : state :=
  {| isProcessing := isProcessing st; pendingUpdate := pendingUpdate st;
     animationFrameId := animationFrameId st; rafPending := rafPending st;
     imgComplete := imgComplete st; frames := frames st;
     nextFrame := nextFrame st; renders := S (renders st) |}.

Definition requestUpdate (st : state) : state :=
  if isProcessing st then set_pendingUpdate true st
  else
    let st :=
      match animationFrameId st with
      | Some id => cancelAnimationFrame id st
      | None => st
      end in
    let '(id, st) := requestAnimationFrame UpdateProjection st in
    set_animationFrameId id st.

Definition updateProjection (st : state) : state :=
  if negb (imgComplete st) || isProcessing st then
    if pendingUpdate st then
      let '(id, st) := requestAnimationFrame UpdateProjection st in
      set_animationFrameId id st
    else st
  else
    let st := set_isProcessing true st in
    let st := set_pendingUpdate false st in
    let st := render st in
    let st := set_isProcessing false st in
    if pendingUpdate st then snd (requestAnimationFrame UpdateProjection st)
    else st.

Definition handleSliderChange (st : state) : state :=
  if rafPending st then st
  else snd (requestAnimationFrame SliderFrame (set_rafPending true st)).

Definition runCallback (cb : callback) (st : state) : state :=
  match cb with
  | UpdateProjection => updateProjection st
  | SliderFrame => set_rafPending false (requestUpdate st)
  end.

(** What happens to the page: a slider moves, an image finishes loading
    ([img.onload]) or fails to load ([img.onerror]), a file is chosen
    ([img = new Image ()], not complete yet), the window has been resized, or
    the browser runs the requested animation frame [id]. *)
Inductive event : Type :=
| SliderInput
| ImageLoaded
| ImageFailed
| ImageReplaced
| Resized
| Frame (id : nat).

Definition step (st : state) (e : event) : state :=
  match e with
  | SliderInput => handleSliderChange st
  | ImageLoaded => requestUpdate (set_imgComplete true st)
  | ImageFailed => set_imgComplete true st
  | ImageReplaced => set_imgComplete false st
  | Resized => requestUpdate st
  | Frame id =>
      match list_find (fun f => fst f = id) (frames st) with
      | Some (_, (_, cb)) =>
          runCallback cb
            {| isProcessing := isProcessing st; pendingUpdate := pendingUpdate st;
               animationFrameId := animationFrameId st; rafPending := rafPending st;
               imgComplete := imgComplete st;
               frames := filter (fun f => fst f <> id) (frames st);
               nextFrame := nextFrame st; renders := renders st |}
      | None => st
      end
  end.

Definition run (events : list event) : state := fold_left step events init.

(** The requested frames that will run [cb]. *)
Definition pending (cb : callback) (st : state) : list (nat * callback) :=
  filter (fun f => snd f = cb) (frames st).

(** The number of animation frames the browser has run. *)
Definition frameEvents (events : list event) : nat :=
  length (flat_map (fun e => match e with Frame _ => [tt] | _ => [] end) events).

End Page.

(** The invariant of the page between two events, without and with the
    account of the slider frames. *)
Definition page_core (st : Page.state) : Prop :=
  Page.isProcessing st = false
  /\ Page.pendingUpdate st = false
  /\ (forall f, f ∈ Page.frames st -> (fst f < Page.nextFrame st)%nat)
  /\ (forall f, f ∈ Page.frames st -> snd f = Page.UpdateProjection ->
                Page.animationFrameId st = Some (fst f))
  /\ (forall f, f ∈ Page.frames st -> snd f = Page.SliderFrame ->
                Page.animationFrameId st <> Some (fst f))
  /\ (forall id, Page.animationFrameId st = Some id -> (id < Page.nextFrame st)%nat)
  /\ (length (Page.pending Page.UpdateProjection st) <= 1)%nat.

Definition page_inv (st : Page.state) : Prop :=
  page_core st
  /\ length (Page.pending Page.SliderFrame st) = (if Page.rafPending st then 1 else 0)%nat.

(** ** The shader program of [WebGLRenderer]: [compileShader] and
    [initShaderProgram] *)

Module Program.

(** The shader and program objects of the WebGL context that are alive,
    and the number of objects created so far. *)
Record GL : Type := mkGL {
  shaders : gset nat;
  programs : gset nat;
  objects : nat
}.

(** The context the constructor gets. *)
Definition fresh : GL := {| shaders := ∅; programs := ∅; objects := 0 |}.

(** A returned value or a thrown [Error] with its message. *)
Inductive result (A : Type) : Type :=
| Ok (value : A)
| Throw (message : string).

Arguments Ok {A} _.
Arguments Throw {A} _.

Definition createShader (g : GL) : nat * GL :=
  (objects g,
   {| shaders := {[objects g]} ∪ shaders g; programs := programs g;
      objects := S (objects g) |}).

Definition deleteShader (shader : nat) (g : GL) : GL :=
  {| shaders := shaders g ∖ {[shader]}; programs := programs g; objects := objects g |}.

Definition createProgram (g : GL) : nat * GL :=
  (objects g,
   {| shaders := shaders g; programs := {[objects g]} ∪ programs g;
      objects := S (objects g) |}).

(** [compileShader (type, source)]; [status] is what
    [getShaderParameter (shader, COMPILE_STATUS)] returns for the source and
    [info] what [getShaderInfoLog] returns. *)
Definition compileShader (status : bool) (info : string) (g : GL) : result nat * GL :=
  let '(shader, g) := createShader g in
  if status then (Ok shader, g)
  else (Throw ("Shader compilation failed: " ++ info), deleteShader shader g).

(** [initShaderProgram]; [link_status] is what
    [getProgramParameter (program, LINK_STATUS)] returns. *)
Definition initShaderProgram (vs_status : bool) (vs_info : string)
    (fs_status : bool) (fs_info : string) (link_status : bool) (g : GL)
  : result nat * GL :=
  match compileShader vs_status vs_info g with
  | (Throw message, g) => (Throw message, g)
  | (Ok vertexShader, g) =>
      match compileShader fs_status fs_info g with
      | (Throw message, g) => (Throw message, g)
      | (Ok fragmentShader, g) =>
          let '(program, g) := createProgram g in
          if link_status then (Ok program, g)
          else (Throw "Shader program initialization failed", g)
      end
  end.

End Program.

(** * Properties *)

Ltac pair_eq := repeat match goal with |- (_, _) = (_, _) => f_equal end.

(** ** The rotation *)

Section Rotation.

Variables alpha beta gamma : R.

Lemma sin_cos_unit (a : R) : sin a * sin a + cos a * cos a = 1.
Proof. pose proof (sin2_cos2 a) as H. unfold Rsqr in H. exact H. Qed.

(** The matrix of the worker is the Euler composition
    Z(gamma) Y(beta) X(alpha). *)
Lemma rot_mat_euler :
  Worker.rot_mat alpha beta gamma =
  Spec.mat_mul (Spec.rot_z gamma) (Spec.mat_mul (Spec.rot_y beta) (Spec.rot_x alpha)).
Proof.
  unfold Spec.rot_x, Spec.rot_y, Spec.rot_z, Spec.mat_mul, Worker.rot_mat.
  pair_eq; ring.
Qed.

Lemma inverse_rotation_transpose :
  Spec.inverse_rotation alpha beta gamma =
  Spec.transpose (Worker.rot_mat alpha beta gamma).
Proof.
  unfold Spec.inverse_rotation, Spec.rot_x, Spec.rot_y, Spec.rot_z, Spec.mat_mul,
    Spec.transpose, Worker.rot_mat.
  rewrite !cos_neg, !sin_neg.
  pair_eq; ring.
Qed.

Lemma transpose_rot_mat :
  Spec.mat_mul (Spec.transpose (Worker.rot_mat alpha beta gamma))
    (Worker.rot_mat alpha beta gamma) = Spec.identity.
Proof.
  unfold Spec.mat_mul, Spec.transpose, Worker.rot_mat, Spec.identity.
  pose proof (sin_cos_unit alpha) as Ha.
  pose proof (sin_cos_unit beta) as Hb.
  pose proof (sin_cos_unit gamma) as Hg.
  generalize dependent (sin alpha); generalize dependent (cos alpha).
  generalize dependent (sin beta); generalize dependent (cos beta).
  generalize dependent (sin gamma); generalize dependent (cos gamma).
  intros cg sg Hg cb sb Hb ca sa Ha.
  pair_eq; nsatz.
Qed.

Lemma axisRotate_mat_mul (a b : Worker.mat) (P : vec3) :
  Worker.axisRotate (Worker.axisRotate P b) a = Worker.axisRotate P (Spec.mat_mul a b).
Proof.
  destruct a as [[[[a00 a01] a02] [[a10 a11] a12]] [[a20 a21] a22]].
  destruct b as [[[[b00 b01] b02] [[b10 b11] b12]] [[b20 b21] b22]].
  destruct P as [[p0 p1] p2].
  unfold Worker.axisRotate, Spec.mat_mul.
  pair_eq; ring.
Qed.

Lemma axisRotate_identity (P : vec3) : Worker.axisRotate P Spec.identity = P.
Proof.
  destruct P as [[p0 p1] p2]. unfold Worker.axisRotate, Spec.identity.
  pair_eq; ring.
Qed.

(** The shader multiplies by the matrix whose columns are the rows of the
    worker's matrix. *)
Lemma shader_rotation_transposed (P : vec3) :
  Shader.mat3_mul_vec3 (Shader.computeRotationMatrix (alpha, beta, gamma)) P =
  Worker.axisRotate P (Spec.transpose (Worker.rot_mat alpha beta gamma)).
Proof.
  destruct P as [[p0 p1] p2].
  unfold Shader.mat3_mul_vec3, Shader.computeRotationMatrix, Shader.mat3_of_floats,
    Worker.axisRotate, Spec.transpose, Worker.rot_mat.
  pair_eq; ring.
Qed.

End Rotation.

(** C8. For all angles and every point, the rotation [rot_mat], which is
    the composition Z(gamma) Y(beta) X(alpha), followed by the inverse built
    from the negated angles in the reverse composition order returns the
    point; that inverse is the transpose of [rot_mat], and the transpose
    times [rot_mat] is the identity (exactly, over the reals). *)
Theorem rotation_round_trip (alpha beta gamma : R) (P : vec3) :
  Worker.axisRotate (Worker.axisRotate P (Worker.rot_mat alpha beta gamma))
    (Spec.inverse_rotation alpha beta gamma) = P
  /\ Worker.rot_mat alpha beta gamma =
     Spec.mat_mul (Spec.rot_z gamma) (Spec.mat_mul (Spec.rot_y beta) (Spec.rot_x alpha))
  /\ Spec.inverse_rotation alpha beta gamma =
     Spec.transpose (Worker.rot_mat alpha beta gamma)
  /\ Spec.mat_mul (Spec.transpose (Worker.rot_mat alpha beta gamma))
       (Worker.rot_mat alpha beta gamma) = Spec.identity.
Proof.
  split; [| split; [| split]].
  - rewrite axisRotate_mat_mul, inverse_rotation_transpose, transpose_rot_mat.
    apply axisRotate_identity.
  - apply rot_mat_euler.
  - apply inverse_rotation_transpose.
  - apply transpose_rot_mat.
Qed.

(** ** Platform functions: ranges *)

Lemma PI_le_shader_PI : PI <= Shader.PI.
Proof.
  pose proof (PI_2_3_7_ineq 6) as [_ H].
  unfold PI_2_3_7_tg, tg_alt, Ratan_seq in H.
  simpl sum_f_R0 in H. simpl in H.
  unfold Shader.PI. lra.
Qed.

Lemma PI2_le_shader_TWO_PI : 2 * PI <= Shader.TWO_PI.
Proof. pose proof PI_le_shader_PI as H. unfold Shader.PI in H. unfold Shader.TWO_PI. lra. Qed.

Lemma atan_nonpos (v : R) : v <= 0 -> atan v <= 0.
Proof.
  intros [Hlt | ->].
  - left. rewrite <- atan_0. now apply atan_increasing.
  - rewrite atan_0. lra.
Qed.

Lemma atan_pos (v : R) : 0 < v -> 0 < atan v.
Proof. intros Hv. rewrite <- atan_0. now apply atan_increasing. Qed.

Lemma atan2_bound (y x : R) : - PI <= atan2 y x <= PI.
Proof.
  pose proof PI_RGT_0 as Hpi.
  unfold atan2.
  destruct (Rlt_dec 0 x) as [Hx | Hx].
  { pose proof (atan_bound (y / x)). lra. }
  destruct (Rlt_dec x 0) as [Hx' | Hx'].
  - pose proof (atan_bound (y / x)) as Hb.
    destruct (Rle_dec 0 y) as [Hy | Hy].
    + assert (y / x <= 0) as Hq.
      { unfold Rdiv. assert (/ x < 0) by now apply Rinv_lt_0_compat. nra. }
      pose proof (atan_nonpos _ Hq). lra.
    + assert (0 < y / x) as Hq.
      { unfold Rdiv. assert (/ x < 0) by now apply Rinv_lt_0_compat. nra. }
      pose proof (atan_pos _ Hq). lra.
  - destruct (Rlt_dec 0 y); [lra |]. destruct (Rlt_dec y 0); lra.
Qed.

Lemma Math_round_bounds (x : R) (n : Z) :
  0 <= x <= IZR n -> (0 <= Math_round x <= n)%Z.
Proof.
  intros [H0 Hn]. unfold Math_round.
  destruct (base_Int_part (x + / 2)) as [Hle Hgt].
  split.
  - apply Z.lt_succ_r, Z.lt_pred_lt_succ. apply lt_IZR.
    change (Z.pred 0) with (-1)%Z. lra.
  - apply Z.lt_succ_r. apply lt_IZR. rewrite succ_IZR. lra.
Qed.

Lemma Math_round_IZR (n : Z) (d : R) : - / 2 <= d < / 2 -> Math_round (IZR n + d) = n.
Proof.
  intros [Hl Hu]. unfold Math_round.
  destruct (base_Int_part (IZR n + d + / 2)) as [Hle Hgt].
  apply Z.le_antisymm.
  - apply Z.lt_succ_r. apply lt_IZR. rewrite succ_IZR. lra.
  - apply Z.lt_pred_le. apply lt_IZR. rewrite <- Z.sub_1_r, minus_IZR. lra.
Qed.

Lemma js_rem_nonneg (a b : Z) :
  (0 <= a)%Z -> (0 < b)%Z ->
  js_rem a b = Some (a mod b)%Z /\ (0 <= a mod b < b)%Z.
Proof.
  intros Ha Hb. unfold js_rem.
  destruct (Z.eqb_spec b 0) as [-> | _]; [lia |].
  split; [| now apply Z.mod_pos_bound].
  f_equal. apply Z.rem_mod_nonneg; lia.
Qed.

Lemma Math_acos_div_in_range (z r : R) :
  0 < r -> - r <= z <= r ->
  Math_acos (js_div z r) = Some (acos (z / r)) /\ 0 <= acos (z / r) / PI <= 1.
Proof.
  intros Hr [Hl Hu]. pose proof PI_RGT_0 as Hpi.
  assert (-1 <= z / r <= 1) as [Hq1 Hq2].
  { split.
    - apply Rmult_le_reg_r with r; [lra |]. unfold Rdiv.
      rewrite Rmult_assoc, Rinv_l by lra. lra.
    - apply Rmult_le_reg_r with r; [lra |]. unfold Rdiv.
      rewrite Rmult_assoc, Rinv_l by lra. lra. }
  unfold js_div, Math_acos.
  destruct (Req_dec_T r 0) as [-> | _]; [lra |].
  destruct (Rle_dec (-1) (z / r)); [| lra].
  destruct (Rle_dec (z / r) 1); [| lra].
  split; [reflexivity |].
  pose proof (acos_bound (z / r)) as [Ha0 Ha1].
  split.
  - apply Rmult_le_reg_r with PI; [lra |]. unfold Rdiv.
    rewrite Rmult_assoc, Rinv_l by lra. lra.
  - apply Rmult_le_reg_r with PI; [lra |]. unfold Rdiv.
    rewrite Rmult_assoc, Rinv_l by lra. lra.
Qed.

Lemma Math_acos_below (z r : R) : 0 < r -> z < - r -> Math_acos (js_div z r) = None.
Proof.
  intros Hr Hz. unfold js_div, Math_acos.
  destruct (Req_dec_T r 0) as [-> | _]; [lra |].
  destruct (Rle_dec (-1) (z / r)) as [Hq |]; [| reflexivity].
  exfalso.
  assert (z / r * r = z) by (field; lra). nra.
Qed.

Lemma longitude_in_range (y x : R) : 0 <= atan2 y x / (2 * PI) + 0.5 <= 1.
Proof.
  pose proof PI_RGT_0 as Hpi. pose proof (atan2_bound y x) as [Hl Hu].
  assert (- / 2 <= atan2 y x / (2 * PI) <= / 2) as [H1 H2].
  { split.
    - apply Rmult_le_reg_r with (2 * PI); [lra |]. unfold Rdiv.
      rewrite Rmult_assoc, Rinv_l by lra. lra.
    - apply Rmult_le_reg_r with (2 * PI); [lra |]. unfold Rdiv.
      rewrite Rmult_assoc, Rinv_l by lra. lra. }
  lra.
Qed.

(** ** The projection of the worker *)

Lemma clamp_upper_Rmin (z r : R) : (if Rlt_dec r z then r else z) = Rmin z r.
Proof.
  unfold Rmin. destruct (Rlt_dec r z), (Rle_dec z r); lra.
Qed.

Lemma scaled_in_range (t : R) (n : Z) :
  0 <= t <= 1 -> (0 < n)%Z -> 0 <= t * IZR n <= IZR n.
Proof.
  intros [H0 H1] Hn. apply IZR_lt in Hn. nra.
Qed.

(** What [getPixOnImg] returns for a positive radius, with the mathematical
    [mod]; below [- r] the arccosine is not a number. *)
Lemma getPixOnImg_formula (x y z r : R) (h_img w_img : Z) :
  0 < r -> - r <= z -> (0 < h_img)%Z -> (0 < w_img)%Z ->
  Worker.getPixOnImg (x, y, z) r h_img w_img =
  Some ((Math_round (acos (Rmin z r / r) / PI * IZR h_img) mod h_img)%Z,
        (Math_round ((atan2 y x / (2 * PI) + 0.5) * IZR w_img) mod w_img)%Z).
Proof.
  intros Hr Hz Hh Hw. unfold Worker.getPixOnImg.
  rewrite clamp_upper_Rmin.
  assert (- r <= Rmin z r <= r) as Hm.
  { unfold Rmin. destruct (Rle_dec z r); lra. }
  destruct (Math_acos_div_in_range _ _ Hr Hm) as [-> Hrow].
  pose proof (longitude_in_range y x) as Hcol.
  destruct (Math_round_bounds _ _ (scaled_in_range _ _ Hrow Hh)) as [Hi _].
  destruct (Math_round_bounds _ _ (scaled_in_range _ _ Hcol Hw)) as [Hj _].
  destruct (js_rem_nonneg _ _ Hi Hh) as [-> _].
  destruct (js_rem_nonneg _ _ Hj Hw) as [-> _].
  reflexivity.
Qed.

Lemma getPixOnImg_in_bounds (x y z r : R) (h_img w_img : Z) :
  0 < r -> - r <= z -> (0 < h_img)%Z -> (0 < w_img)%Z ->
  exists i j, Worker.getPixOnImg (x, y, z) r h_img w_img = Some (i, j)
              /\ (0 <= i < h_img)%Z /\ (0 <= j < w_img)%Z.
Proof.
  intros Hr Hz Hh Hw.
  rewrite (getPixOnImg_formula x y z r h_img w_img Hr Hz Hh Hw).
  eexists _, _. split; [reflexivity |].
  split; apply Z.mod_pos_bound; assumption.
Qed.

Lemma getPixOnImg_below (x y z r : R) (h_img w_img : Z) :
  0 < r -> z < - r -> Worker.getPixOnImg (x, y, z) r h_img w_img = None.
Proof.
  intros Hr Hz. unfold Worker.getPixOnImg.
  destruct (Rlt_dec r z); [lra |].
  now rewrite Math_acos_below.
Qed.

(** The unprojected point lies on the sphere of radius [r]. *)
Lemma getPointOnSphere_norm (x y z r : R) :
  r <> 0 ->
  let '(px, py, pz) := Worker.getPointOnSphere (x, y, z) r in
  px * px + py * py + pz * pz = r * r.
Proof.
  intros Hr. unfold Worker.getPointOnSphere.
  assert (x ^ 2 + y ^ 2 + r ^ 2 <> 0) by nra.
  field. assumption.
Qed.

(** The rotation preserves the norm. *)
Lemma axisRotate_norm (alpha beta gamma : R) (p0 p1 p2 : R) :
  let '(q0, q1, q2) := Worker.axisRotate (p0, p1, p2) (Worker.rot_mat alpha beta gamma) in
  q0 * q0 + q1 * q1 + q2 * q2 = p0 * p0 + p1 * p1 + p2 * p2.
Proof.
  unfold Worker.axisRotate, Worker.rot_mat.
  pose proof (sin_cos_unit alpha) as Ha.
  pose proof (sin_cos_unit beta) as Hb.
  pose proof (sin_cos_unit gamma) as Hg.
  generalize dependent (sin alpha); generalize dependent (cos alpha).
  generalize dependent (sin beta); generalize dependent (cos beta).
  generalize dependent (sin gamma); generalize dependent (cos gamma).
  intros cg sg Hg cb sb Hb ca sa Ha.
  nsatz.
Qed.

Lemma projection_in_bounds (row col : nat) (r : R) (h_img w_img : Z)
    (h_proj w_proj : nat) (offset_hor offset_ver alpha beta gamma : R) :
  0 < r -> (0 < h_img)%Z -> (0 < w_img)%Z ->
  exists i j,
    Worker.projection (row, col) r h_img w_img h_proj w_proj offset_hor offset_ver
      (Worker.rot_mat alpha beta gamma) = Some (i, j)
    /\ (0 <= i < h_img)%Z /\ (0 <= j < w_img)%Z.
Proof.
  intros Hr Hh Hw. unfold Worker.projection.
  set (x := INR row + (offset_ver - 0.5) * INR h_proj).
  set (y := INR col + (offset_hor - 0.5) * INR w_proj).
  pose proof (getPointOnSphere_norm x y 0 r) as Hs.
  destruct (Worker.getPointOnSphere (x, y, 0) r) as [[p0 p1] p2].
  pose proof (axisRotate_norm alpha beta gamma p0 p1 p2) as Hn.
  destruct (Worker.axisRotate (p0, p1, p2) (Worker.rot_mat alpha beta gamma))
    as [[q0 q1] q2].
  apply getPixOnImg_in_bounds; try assumption.
  assert (r <> 0) as Hr0 by lra. specialize (Hs Hr0). nra.
Qed.

Lemma radius_pos (p : Worker.Params) :
  0 < Worker.scale p -> (0 < Worker.h_proj p)%nat -> (0 < Worker.w_proj p)%nat ->
  0 < Worker.radius p.
Proof.
  intros Hs Hh Hw. unfold Worker.radius.
  assert (0 < INR (Nat.min (Worker.h_proj p) (Worker.w_proj p))).
  { apply lt_0_INR. lia. }
  apply Rmult_lt_0_compat; [| assumption].
  apply Rdiv_lt_0_compat; lra.
Qed.

(** The worker's [getPixOnImg] on the point [(1, 0, 0)] of the unit sphere,
    for a 400 x 200 source. *)
Lemma getPixOnImg_equator :
  Worker.getPixOnImg (1, 0, 0) 1 200 400 = Some (100, 200)%Z.
Proof.
  rewrite getPixOnImg_formula by (lra || lia).
  assert (Rmin 0 1 = 0) as -> by (unfold Rmin; destruct (Rle_dec 0 1); lra).
  assert (atan2 0 1 = 0) as ->.
  { unfold atan2. destruct (Rlt_dec 0 1); [| lra].
    replace (0 / 1) with 0 by field. apply atan_0. }
  replace (0 / 1) with 0 by field. rewrite acos_0.
  pose proof PI_RGT_0 as Hpi.
  replace (PI / 2 / PI * 200) with (IZR 100 + 0) by (field; lra).
  replace (0 / (2 * PI)) with 0 by (unfold Rdiv; ring).
  replace ((0 + 0.5) * 400) with (IZR 200 + 0) by lra.
  rewrite !Math_round_IZR by lra. reflexivity.
Qed.

Lemma spec_formula_equator :
  (Spec.sourceRow 0 1 200, Spec.sourceCol 1 0 400) = (1, 1)%Z.
Proof.
  unfold Spec.sourceRow, Spec.sourceCol.
  assert (atan2 0 1 = 0) as ->.
  { unfold atan2. destruct (Rlt_dec 0 1); [| lra].
    replace (0 / 1) with 0 by field. apply atan_0. }
  replace (0 / 1) with 0 by field. rewrite acos_0.
  pose proof PI_RGT_0 as Hpi.
  replace (PI / 2 / PI) with (IZR 0 + / 2) by (field; lra).
  replace (0 / (2 * PI)) with 0 by (unfold Rdiv; ring).
  replace (0 + 0.5) with (IZR 0 + / 2) by lra.
  assert (Math_round (IZR 0 + / 2) = 1%Z) as ->.
  { replace (IZR 0 + / 2) with (IZR 1 + - / 2) by lra.
    apply Math_round_IZR. lra. }
  reflexivity.
Qed.

(** C2, as stated, fails: on the point [(1, 0, 0)] with [r = 1] and a
    400 x 200 source the worker returns row 100 and column 200, while the
    formulas of the specification, which round before scaling by the source
    size, give row 1 and column 1. *)
Lemma getPixOnImg_not_spec_formula :
  Worker.getPixOnImg (1, 0, 0) 1 200 400
  <> Some (Spec.sourceRow 0 1 200, Spec.sourceCol 1 0 400).
Proof.
  rewrite getPixOnImg_equator, spec_formula_equator.
  intros H. inversion H.
Qed.

(** C2, amended. For a positive radius and a source of positive size, a
    rotated point with [z >= - r] is mapped to
    [round (acos (min z r / r) / PI * sourceHeight) mod sourceHeight] and
    [round ((atan2 (y, x) / (2 PI) + 0.5) * sourceWidth) mod sourceWidth]:
    the fractions are scaled by the source size before rounding.  Below
    [- r] no coordinate is produced. *)
Theorem getPixOnImg_scaled_formula (x y z r : R) (h_img w_img : Z) :
  0 < r -> (0 < h_img)%Z -> (0 < w_img)%Z ->
  (- r <= z ->
   Worker.getPixOnImg (x, y, z) r h_img w_img =
   Some ((Math_round (acos (Rmin z r / r) / PI * IZR h_img) mod h_img)%Z,
         (Math_round ((atan2 y x / (2 * PI) + 0.5) * IZR w_img) mod w_img)%Z))
  /\ (z < - r -> Worker.getPixOnImg (x, y, z) r h_img w_img = None).
Proof.
  intros Hr Hh Hw. split; intros Hz.
  - now apply getPixOnImg_formula.
  - now apply getPixOnImg_below.
Qed.

Lemma getPixOnImg_scaled_formula_witness :
  (- 1 <= 0 ->
   Worker.getPixOnImg (1, 0, 0) 1 200 400 =
   Some ((Math_round (acos (Rmin 0 1 / 1) / PI * IZR 200) mod 200)%Z,
         (Math_round ((atan2 0 1 / (2 * PI) + 0.5) * IZR 400) mod 400)%Z))
  /\ (0 < - 1 -> Worker.getPixOnImg (1, 0, 0) 1 200 400 = None).
Proof.
  apply (getPixOnImg_scaled_formula 1 0 0 1 200 400); [lra | lia | lia].
Defined.

(** C3 fails in the worker as it runs, on binary64 numbers.  For an
    800 x 600 output with [scale = 1], [alpha = gamma = 0], [beta] a right
    angle ([Math.sin] gives 1 and [Math.cos] gives 6.123233995736766e-17),
    [offset_hor = 0.5] and [offset_ver = 0.49], the radius is 60 and the
    rotated point of the output pixel [(66, 0)] has
    [z = -60.000000000000007], below [- r].  [getPixOnImg] clamps [z] from
    above only, so [Math.acos] receives [-1.0000000000000002] and returns
    [NaN]: the source row is not a number, neither is [imgIndex], and the
    four reads of the copy are off the source buffer, whatever the source
    image; the pixel is stored as four zeros.  A cosine of exactly 0 gives
    the same argument, and clamping [z] from below as well, as the shader
    does, would give an argument inside the domain of [Math.acos]. *)
Theorem raster_row_not_a_number :
  let r := Worker64.radius 600 800 1 in
  let rot_mat := Worker64.rot_mat 1 0 6.123233995736766e-17 1 1 0 in
  let P := Worker64.projection_point (66, 0)%float r 600 800 0.5 0.49 rot_mat in
  let P0 :=
    Worker64.projection_point (66, 0)%float r 600 800 0.5 0.49
      (Worker64.rot_mat 1 0 0 1 1 0) in
  r = 60%float
  /\ P = (1.6996616692943939e-14, 0, -60.000000000000007)%float
  /\ (r <? snd P)%float = false
  /\ (snd P <? - r)%float = true
  /\ Worker64.acos_argument P r = (-1.0000000000000002)%float
  /\ Worker64.Math_acos_NaN (Worker64.acos_argument P r) = true
  /\ Worker64.acos_argument P0 r = (-1.0000000000000002)%float
  /\ Worker64.Math_acos_NaN
       ((if snd P <? - r then - r else snd P) / r)%float = false
  /\ forall (imageData : Worker.ImageData) (c : Z),
       typed_get (Worker.data imageData)
         (Worker.index_plus (Worker.imgIndex imageData None) c) = None
       /\ to_uint8_clamped
            (typed_get (Worker.data imageData)
               (Worker.index_plus (Worker.imgIndex imageData None) c)) = 0%Z.
Proof.
  intros r rot_mat P P0.
  repeat match goal with
         | |- _ /\ _ => split
         end; try (vm_compute; reflexivity).
  intros imageData c. split; reflexivity.
Qed.

(** ** The fragment shader *)

Lemma clamp_in_range (x r : R) : 0 < r -> - r <= Shader.clamp x (- r) r <= r.
Proof.
  intros Hr. unfold Shader.clamp, Rmin, Rmax.
  destruct (Rle_dec x (- r)); destruct (Rle_dec _ r); lra.
Qed.

Lemma quotient_in_unit (z r : R) : 0 < r -> - r <= z <= r -> -1 <= z / r <= 1.
Proof.
  intros Hr [Hl Hu].
  split; apply Rmult_le_reg_r with r; try lra; unfold Rdiv;
    rewrite Rmult_assoc, Rinv_l by lra; lra.
Qed.

Lemma shader_row_in_range (v : R) : 0 <= acos v / Shader.PI <= 1.
Proof.
  pose proof PI_RGT_0 as Hpi. pose proof PI_le_shader_PI as Hle.
  pose proof (acos_bound v) as [Ha0 Ha1].
  split; apply Rmult_le_reg_r with Shader.PI; try lra; unfold Rdiv;
    rewrite Rmult_assoc, Rinv_l by lra; lra.
Qed.

Lemma shader_col_in_range (y x : R) : 0 <= atan2 y x / Shader.TWO_PI + 0.5 <= 1.
Proof.
  pose proof PI_RGT_0 as Hpi. pose proof PI2_le_shader_TWO_PI as Hle.
  pose proof (atan2_bound y x) as [Hl Hu].
  assert (- / 2 <= atan2 y x / Shader.TWO_PI <= / 2) as [H1 H2].
  { split; apply Rmult_le_reg_r with Shader.TWO_PI; try lra; unfold Rdiv;
      rewrite Rmult_assoc, Rinv_l by lra; lra. }
  lra.
Qed.

Lemma shader_getPixOnImg_in_unit_square (u : Shader.Uniforms) (point : vec3) :
  let '(col, row) := Shader.getPixOnImg u point in
  0 <= col <= 1 /\ 0 <= row <= 1.
Proof.
  destruct point as [[px py] pz]. unfold Shader.getPixOnImg.
  split; [apply shader_col_in_range | apply shader_row_in_range].
Qed.

Lemma imgCoord_in_unit_square (u : Shader.Uniforms) (vTextureCoord : vec2) :
  let '(col, row) := Shader.imgCoord u vTextureCoord in
  0 <= col <= 1 /\ 0 <= row <= 1.
Proof.
  destruct vTextureCoord as [tx ty]. unfold Shader.imgCoord.
  destruct (Shader.uResolution u) as [resx resy].
  apply shader_getPixOnImg_in_unit_square.
Qed.

Lemma Rltb_true (a b : R) : Shader.Rltb a b = true <-> a < b.
Proof. unfold Shader.Rltb. destruct (Rlt_dec a b); split; intros; (assumption || easy). Qed.

Lemma out_of_range_spec (c : vec2) :
  Shader.out_of_range c = true <->
  (fst c < 0 \/ snd c < 0) \/ (1 < fst c \/ 1 < snd c).
Proof.
  destruct c as [cx cy]. unfold Shader.out_of_range. simpl.
  rewrite !orb_true_iff, !Rltb_true. reflexivity.
Qed.

Lemma main_discard_iff (u : Shader.Uniforms) (vTextureCoord : vec2) :
  Shader.main u vTextureCoord = None <->
  Shader.out_of_range (Shader.imgCoord u vTextureCoord) = true.
Proof.
  unfold Shader.main.
  destruct (Shader.out_of_range (Shader.imgCoord u vTextureCoord)); split; easy.
Qed.

Lemma main_not_discarded (u : Shader.Uniforms) (vTextureCoord : vec2) :
  Shader.main u vTextureCoord =
  Some (Shader.sampleTexture u (Shader.imgCoord u vTextureCoord)).
Proof.
  unfold Shader.main.
  destruct (Shader.out_of_range (Shader.imgCoord u vTextureCoord)) eqn:Ho;
    [| reflexivity].
  apply out_of_range_spec in Ho.
  pose proof (imgCoord_in_unit_square u vTextureCoord) as Hc.
  destruct (Shader.imgCoord u vTextureCoord) as [col row]. simpl in Ho. lra.
Qed.

(** C10. For a positive radius the argument of the shader's arccosine is in
    [[-1, 1]], [getPixOnImg] returns a coordinate in the unit square, and
    [main] takes the sampling branch for every fragment: the [discard] is
    never reached. *)
Theorem shader_never_discards (u : Shader.Uniforms) (point : vec3)
    (vTextureCoord : vec2) :
  0 < Shader.uRadius u ->
  -1 <= Shader.clamp (snd point) (- Shader.uRadius u) (Shader.uRadius u)
        / Shader.uRadius u <= 1
  /\ 0 <= fst (Shader.getPixOnImg u point) <= 1
  /\ 0 <= snd (Shader.getPixOnImg u point) <= 1
  /\ Shader.out_of_range (Shader.imgCoord u vTextureCoord) = false
  /\ Shader.main u vTextureCoord =
     Some (Shader.sampleTexture u (Shader.imgCoord u vTextureCoord)).
Proof.
  intros Hr.
  pose proof (shader_getPixOnImg_in_unit_square u point) as Hp.
  destruct (Shader.getPixOnImg u point) as [col row]. simpl.
  split; [| split; [| split; [| split]]]; try tauto.
  - apply quotient_in_unit; [assumption |]. now apply clamp_in_range.
  - pose proof (main_not_discarded u vTextureCoord) as Hm.
    unfold Shader.main in Hm.
    destruct (Shader.out_of_range (Shader.imgCoord u vTextureCoord)); easy.
  - apply main_not_discarded.
Qed.

Lemma shader_never_discards_witness :
  let u := Shader.mkUniforms (fun _ => (1, 0, 0, 1)) (800, 600) 1 (0, 0, 0) (0.5, 0.5) 60 in
  -1 <= Shader.clamp (snd (0, 0, -100)) (- Shader.uRadius u) (Shader.uRadius u)
        / Shader.uRadius u <= 1
  /\ 0 <= fst (Shader.getPixOnImg u (0, 0, -100)) <= 1
  /\ 0 <= snd (Shader.getPixOnImg u (0, 0, -100)) <= 1
  /\ Shader.out_of_range (Shader.imgCoord u (0.5, 0.5)) = false
  /\ Shader.main u (0.5, 0.5) =
     Some (Shader.sampleTexture u (Shader.imgCoord u (0.5, 0.5))).
Proof.
  intros u. apply (shader_never_discards u (0, 0, -100) (0.5, 0.5)).
  simpl. lra.
Defined.

Lemma imgCoord_first_le_1 (u : Shader.Uniforms) (vTextureCoord : vec2) :
  fst (Shader.imgCoord u vTextureCoord) <= 1.
Proof.
  pose proof (imgCoord_in_unit_square u vTextureCoord) as Hc.
  destruct (Shader.imgCoord u vTextureCoord) as [col row]. simpl. lra.
Qed.

(** C7, as stated, fails: no uniforms and no fragment give the mapped
    coordinate [(1.5, 0.5)], because the first component never exceeds 1. *)
Lemma no_parameter_set_reaches_boundary :
  ~ exists (u : Shader.Uniforms) (vTextureCoord : vec2),
      Shader.imgCoord u vTextureCoord = (1.5, 0.5).
Proof.
  intros (u & vTextureCoord & H).
  pose proof (imgCoord_first_le_1 u vTextureCoord) as Hc.
  rewrite H in Hc. simpl in Hc. lra.
Qed.

(** C7, amended. For the uniforms [render] uploads from a parameter set
    with a positive [scale] and a non-empty output, the radius is positive
    and the mapped coordinate of a fragment is never [(1.5, 0.5)]: it lies
    in [[0, 1]] on both axes; [main] discards exactly when its test holds,
    and the test holds exactly for the coordinates outside [[0, 1]] on
    either axis.  For the same parameters the worker's [getPixOnImg] returns
    an in-bounds source pixel for every rotated point with [z >= - r], and
    no pixel for a rotated point below [- r], which its one-sided clamp lets
    through. *)
Theorem boundary_discard_unreachable (image : vec2 -> vec4)
    (imageData : Worker.ImageData) (p : Worker.Params)
    (vTextureCoord c : vec2) :
  0 < Worker.scale p ->
  (0 < Worker.h_proj p)%nat -> (0 < Worker.w_proj p)%nat ->
  (0 < Worker.height imageData)%Z -> (0 < Worker.width imageData)%Z ->
  let u :=
    Shader.render (Worker.w_proj p) (Worker.h_proj p) image (Worker.scale p)
      (Worker.alpha p) (Worker.beta p) (Worker.gamma p)
      (Worker.offset_hor p) (Worker.offset_ver p) in
  0 < Shader.uRadius u
  /\ Shader.imgCoord u vTextureCoord <> (1.5, 0.5)
  /\ (0 <= fst (Shader.imgCoord u vTextureCoord) <= 1
      /\ 0 <= snd (Shader.imgCoord u vTextureCoord) <= 1)
  /\ (Shader.main u vTextureCoord = None <->
      Shader.out_of_range (Shader.imgCoord u vTextureCoord) = true)
  /\ (Shader.out_of_range c = true <->
      (fst c < 0 \/ snd c < 0) \/ (1 < fst c \/ 1 < snd c))
  /\ (forall P : vec3,
        - Worker.radius p <= snd P ->
        exists i j,
          Worker.getPixOnImg P (Worker.radius p)
            (Worker.height imageData) (Worker.width imageData) = Some (i, j)
          /\ (0 <= i < Worker.height imageData)%Z
          /\ (0 <= j < Worker.width imageData)%Z)
  /\ (forall P : vec3,
        snd P < - Worker.radius p ->
        Worker.getPixOnImg P (Worker.radius p)
          (Worker.height imageData) (Worker.width imageData) = None).
Proof.
  intros Hs Hy Hx Hh Hw u.
  assert (0 < Worker.radius p) as Hr by (apply radius_pos; [assumption | lia | lia]).
  split; [exact Hr |].
  split.
  { intros H. pose proof (imgCoord_first_le_1 u vTextureCoord) as Hc.
    rewrite H in Hc. simpl in Hc. lra. }
  split.
  { pose proof (imgCoord_in_unit_square u vTextureCoord) as Hc.
    destruct (Shader.imgCoord u vTextureCoord) as [col row]. exact Hc. }
  split; [apply main_discard_iff |].
  split; [apply out_of_range_spec |].
  split.
  - intros [[px py] pz] Hz. simpl in Hz. now apply getPixOnImg_in_bounds.
  - intros [[px py] pz] Hz. simpl in Hz. now apply getPixOnImg_below.
Qed.

Lemma boundary_discard_unreachable_witness :
  let p := Worker.mkParams 800 600 1 0 0 0 0.5 0.5 in
  let imageData := solid_image red 400 200 in
  let u := Shader.render 800 600 (fun _ => (1, 0, 0, 1)) 1 0 0 0 0.5 0.5 in
  0 < Shader.uRadius u
  /\ Shader.imgCoord u (0.25, 0.75) <> (1.5, 0.5)
  /\ (0 <= fst (Shader.imgCoord u (0.25, 0.75)) <= 1
      /\ 0 <= snd (Shader.imgCoord u (0.25, 0.75)) <= 1)
  /\ (Shader.main u (0.25, 0.75) = None <->
      Shader.out_of_range (Shader.imgCoord u (0.25, 0.75)) = true)
  /\ (Shader.out_of_range (1.5, 0.5) = true <->
      (fst (1.5, 0.5) < 0 \/ snd (1.5, 0.5) < 0)
      \/ (1 < fst (1.5, 0.5) \/ 1 < snd (1.5, 0.5)))
  /\ (forall P : vec3,
        - Worker.radius p <= snd P ->
        exists i j,
          Worker.getPixOnImg P (Worker.radius p) 200 400 = Some (i, j)
          /\ (0 <= i < 200)%Z /\ (0 <= j < 400)%Z)
  /\ (forall P : vec3,
        snd P < - Worker.radius p ->
        Worker.getPixOnImg P (Worker.radius p) 200 400 = None).
Proof.
  intros p imageData u.
  apply (boundary_discard_unreachable (fun _ => (1, 0, 0, 1)) imageData p
           (0.25, 0.75) (1.5, 0.5));
    simpl; (lra || lia).
Defined.

(** ** The two paths compared *)

Lemma Rmin_INR (a b : nat) : Rmin (INR a) (INR b) = INR (Nat.min b a).
Proof.
  unfold Rmin. destruct (Rle_dec (INR a) (INR b)) as [Hle | Hgt].
  - apply INR_le in Hle. f_equal. lia.
  - assert (INR b < INR a) as Hlt by lra. apply INR_lt in Hlt. f_equal. lia.
Qed.

(** X10. The shader puts the horizontal pixel coordinate on the first axis
    of the plane and the vertical one on the second; the worker puts the row
    on the first and the column on the second.  For the same parameters the
    two unprojected points are mirror images in the first two axes. *)
Lemma projectToSphere_axes (W H : nat) (image : vec2 -> vec4)
    (scale alpha beta gamma offsetHor offsetVer : R) (col row : R) :
  Shader.projectToSphere
    (Shader.render W H image scale alpha beta gamma offsetHor offsetVer) (col, row)
  = let '(x, y, z) :=
      Worker.getPointOnSphere
        (row + (offsetVer - 0.5) * INR H, col + (offsetHor - 0.5) * INR W, 0)
        (INR (Nat.min H W) / 10 * scale) in
    (y, x, z).
Proof.
  unfold Shader.projectToSphere, Shader.render, Worker.getPointOnSphere.
  cbn [Shader.uOffset Shader.uResolution Shader.uScale].
  rewrite Rmin_INR.
  set (r := INR (Nat.min H W) / 10 * scale).
  set (ax := col + (offsetHor - 0.5) * INR W).
  set (ay := row + (offsetVer - 0.5) * INR H).
  replace (2 * r * r) with (2 * r ^ 2) by ring.
  replace (ax * ax + ay * ay + r * r) with (ay ^ 2 + ax ^ 2 + r ^ 2) by ring.
  reflexivity.
Qed.

Lemma atan2_axis_pos (y : R) : 0 < y -> atan2 y 0 = PI / 2.
Proof.
  intros Hy. unfold atan2.
  destruct (Rlt_dec 0 0); [lra |]. destruct (Rlt_dec 0 y); [reflexivity | lra].
Qed.

Lemma atan2_axis_neg (y : R) : y < 0 -> atan2 y 0 = - (PI / 2).
Proof.
  intros Hy. unfold atan2.
  destruct (Rlt_dec 0 0); [lra |]. destruct (Rlt_dec 0 y); [lra |].
  destruct (Rlt_dec y 0); [reflexivity | lra].
Qed.

(** The worker's source pixel for the point [(0, 1, 0)] of the unit sphere,
    on a 400 x 200 source: three quarters of the width. *)
Lemma getPixOnImg_quarter_turn :
  Worker.getPixOnImg (0, 1, 0) 1 200 400 = Some (100, 300)%Z.
Proof.
  rewrite getPixOnImg_formula by (lra || lia).
  assert (Rmin 0 1 = 0) as -> by (unfold Rmin; destruct (Rle_dec 0 1); lra).
  rewrite atan2_axis_pos by lra.
  replace (0 / 1) with 0 by field. rewrite acos_0.
  pose proof PI_RGT_0 as Hpi.
  replace (PI / 2 / PI * 200) with (IZR 100 + 0) by (field; lra).
  replace (PI / 2 / (2 * PI)) with (/ 4) by (field; lra).
  replace ((/ 4 + 0.5) * 400) with (IZR 300 + 0) by lra.
  rewrite !Math_round_IZR by lra. reflexivity.
Qed.

(** The shader's column for the point [(0, -1, 0)]: below the middle. *)
Lemma shader_col_quarter_turn (u : Shader.Uniforms) :
  fst (Shader.getPixOnImg u (0, -1, 0)) < 0.5.
Proof.
  unfold Shader.getPixOnImg. cbn [fst].
  rewrite atan2_axis_neg by lra.
  pose proof PI_RGT_0 as Hpi. pose proof PI2_le_shader_TWO_PI as Hle.
  assert (0 < / Shader.TWO_PI) by (apply Rinv_0_lt_compat; lra).
  unfold Rdiv. nra.
Qed.

(** C1. The two paths do not apply the same linear map: for every angle
    triple the shader applies the transpose of the worker's matrix.  At
    [alpha = beta = 0], [gamma = PI / 2] the worker sends the point
    [(1, 0, 0)] to [(0, 1, 0)] while the shader sends it to [(0, -1, 0)];
    on a 400 x 200 source the worker then samples the column 300, three
    quarters of the width, and the shader a column in the left half. *)
Theorem rotation_paths_disagree :
  (forall alpha beta gamma P,
      Shader.mat3_mul_vec3 (Shader.computeRotationMatrix (alpha, beta, gamma)) P =
      Worker.axisRotate P (Spec.transpose (Worker.rot_mat alpha beta gamma)))
  /\ Worker.axisRotate (1, 0, 0) (Worker.rot_mat 0 0 (PI / 2)) = (0, 1, 0)
  /\ Shader.mat3_mul_vec3 (Shader.computeRotationMatrix (0, 0, PI / 2)) (1, 0, 0)
     = (0, -1, 0)
  /\ Shader.mat3_mul_vec3 (Shader.computeRotationMatrix (0, 0, PI / 2)) (1, 0, 0)
     <> Worker.axisRotate (1, 0, 0) (Worker.rot_mat 0 0 (PI / 2))
  /\ Worker.getPixOnImg
       (Worker.axisRotate (1, 0, 0) (Worker.rot_mat 0 0 (PI / 2))) 1 200 400
     = Some (100, 300)%Z
  /\ (forall u : Shader.Uniforms,
        fst (Shader.getPixOnImg u
               (Shader.mat3_mul_vec3
                  (Shader.computeRotationMatrix (0, 0, PI / 2)) (1, 0, 0)))
        < 0.5).
Proof.
  assert (Hw : Worker.axisRotate (1, 0, 0) (Worker.rot_mat 0 0 (PI / 2)) = (0, 1, 0)).
  { unfold Worker.axisRotate, Worker.rot_mat.
    rewrite cos_PI2, sin_PI2, cos_0, sin_0. pair_eq; ring. }
  assert (Hs : Shader.mat3_mul_vec3 (Shader.computeRotationMatrix (0, 0, PI / 2)) (1, 0, 0)
               = (0, -1, 0)).
  { unfold Shader.mat3_mul_vec3, Shader.computeRotationMatrix, Shader.mat3_of_floats.
    rewrite cos_PI2, sin_PI2, cos_0, sin_0. pair_eq; ring. }
  split; [| split; [| split; [| split; [| split]]]].
  - intros. apply shader_rotation_transposed.
  - exact Hw.
  - exact Hs.
  - rewrite Hw, Hs. intros H. inversion H. lra.
  - rewrite Hw. apply getPixOnImg_quarter_turn.
  - intros u. rewrite Hs. apply shader_col_quarter_turn.
Qed.

(** ** Supersampling *)

(** A loop that adds the same colour at every step adds it as many times as
    it has steps. *)
Lemma fold_add_constant {A : Type} (step : vec4 -> A -> vec4) (c : vec4) (l : list A) :
  (forall color a, step color a = Shader.vec4_add color c) ->
  forall acc,
    fold_left step l acc = Shader.vec4_add acc (vec4_scale (INR (length l)) c).
Proof.
  intros Hstep. induction l as [| a l IH]; intros acc.
  - destruct acc as [[[a0 a1] a2] a3], c as [[[c0 c1] c2] c3].
    simpl. pair_eq; ring.
  - cbn [fold_left]. rewrite IH, Hstep.
    change (length (a :: l)) with (S (length l)). rewrite S_INR.
    destruct acc as [[[a0 a1] a2] a3], c as [[[c0 c1] c2] c3].
    simpl. pair_eq; ring.
Qed.

(** C9. On a texture of one uniform colour [c], [sampleTexture] returns
    exactly [c] at every coordinate: the mean of 64 equal samples. *)
Theorem sampleTexture_uniform (u : Shader.Uniforms) (coord : vec2) (c : vec4) :
  (forall p, Shader.uSampler u p = c) -> Shader.sampleTexture u coord = c.
Proof.
  intros Hc. unfold Shader.sampleTexture.
  destruct coord as [cx cy]. destruct (Shader.uResolution u) as [resx resy].
  rewrite (fold_add_constant _ (vec4_scale (INR Shader.SAMPLES) c)).
  - rewrite length_seq. unfold Shader.SAMPLES.
    rewrite !INR_IZR_INZ. simpl Z.of_nat.
    destruct c as [[[c0 c1] c2] c3]. simpl. pair_eq; field.
  - intros color i.
    rewrite (fold_add_constant _ c).
    + now rewrite length_seq.
    + intros color' j. now rewrite Hc.
Qed.

Lemma sampleTexture_uniform_witness :
  Shader.sampleTexture
    (Shader.mkUniforms (fun _ => (1, 0, 0, 1)) (800, 600) 1 (0, 0, 0) (0.5, 0.5) 60)
    (0.25, 0.75) = (1, 0, 0, 1).
Proof.
  apply (sampleTexture_uniform
           (Shader.mkUniforms (fun _ => (1, 0, 0, 1)) (800, 600) 1 (0, 0, 0) (0.5, 0.5) 60)
           (0.25, 0.75) (1, 0, 0, 1)).
  intros p. reflexivity.
Defined.

(** ** The loops of the worker *)

Section Loops.

Variable imageData : Worker.ImageData.
Variable p : Worker.Params.

Let r := Worker.radius p.
Let M := Worker.rot_mat (Worker.alpha p) (Worker.beta p) (Worker.gamma p).
Let w := Worker.w_proj p.
Let h := Worker.h_proj p.

Lemma copyPixel_length (y x : nat) (result : list Z) :
  length (Worker.copyPixel imageData p r M y x result) = length result.
Proof. unfold Worker.copyPixel. now rewrite !length_insert. Qed.

Lemma copyPixel_other (y x k : nat) (result : list Z) :
  (k < (y * w + x) * 4 \/ (y * w + x) * 4 + 3 < k)%nat ->
  Worker.copyPixel imageData p r M y x result !! k = result !! k.
Proof.
  intros Hk. unfold Worker.copyPixel. fold w.
  rewrite !list_lookup_insert_ne by lia. reflexivity.
Qed.

Lemma copyPixel_here (y x c : nat) (result : list Z) :
  ((y * w + x) * 4 + 3 < length result)%nat -> (c < 4)%nat ->
  Worker.copyPixel imageData p r M y x result !! ((y * w + x) * 4 + c)%nat
  = Some (copied_byte imageData p y x c).
Proof.
  intros Hlen Hc. unfold Worker.copyPixel, copied_byte. fold w r M.
  set (pix := Worker.projection _ _ _ _ _ _ _ _ _).
  assert (Worker.index_plus (Worker.imgIndex imageData pix) 0
          = Worker.imgIndex imageData pix) as H0.
  { destruct (Worker.imgIndex imageData pix); simpl; [f_equal; lia | reflexivity]. }
  destruct c as [| [| [| [| c]]]]; try lia.
  - rewrite Nat.add_0_r.
    rewrite !list_lookup_insert_ne by lia.
    rewrite list_lookup_insert_eq by lia.
    change (Z.of_nat 0) with 0%Z. now rewrite H0.
  - rewrite !list_lookup_insert_ne by lia.
    rewrite list_lookup_insert_eq by (rewrite ?length_insert; lia). reflexivity.
  - rewrite !list_lookup_insert_ne by lia.
    rewrite list_lookup_insert_eq by (rewrite ?length_insert; lia). reflexivity.
  - rewrite list_lookup_insert_eq by (rewrite ?length_insert; lia). reflexivity.
Qed.

Lemma copyPixel_inv (Y X : nat) (result : list Z) :
  (Y < h)%nat -> (X < w)%nat ->
  buffer_inv imageData p Y X result ->
  buffer_inv imageData p Y (S X) (Worker.copyPixel imageData p r M Y X result).
Proof.
  intros HY HX [Hlen Hinv]. fold w h in Hlen, Hinv. split.
  - now rewrite copyPixel_length.
  - fold w. intros y x c Hb Hx Hc.
    destruct (decide (y = Y /\ x = X)) as [[-> ->] | Hne].
    + apply copyPixel_here; [| assumption]. rewrite Hlen.
      assert ((Y + 1) * w <= h * w)%nat by (apply Nat.mul_le_mono_r; lia).
      clearbody w h. lia.
    + rewrite copyPixel_other.
      * apply Hinv; try assumption. unfold stored_before in *. lia.
      * clearbody w h.
        destruct (Nat.lt_trichotomy y Y) as [Hlt | [-> | Hgt]].
        -- assert ((y + 1) * w <= Y * w)%nat by (apply Nat.mul_le_mono_r; lia). lia.
        -- lia.
        -- assert ((Y + 1) * w <= y * w)%nat by (apply Nat.mul_le_mono_r; lia). lia.
Qed.

Lemma processRow_inv (Y : nat) (result : list Z) :
  (Y < h)%nat ->
  buffer_inv imageData p Y 0 result ->
  buffer_inv imageData p (S Y) 0 (Worker.processRow imageData p r M result Y).
Proof.
  intros HY Hinv. unfold Worker.processRow. fold w.
  assert (forall n, (n <= w)%nat ->
            buffer_inv imageData p Y n
              (fold_left (fun res x => Worker.copyPixel imageData p r M Y x res)
                 (seq 0 n) result)) as Hcols.
  { induction n as [| n IH]; intros Hn; [exact Hinv |].
    rewrite seq_S, fold_left_app. simpl.
    apply copyPixel_inv; [assumption | lia | apply IH; lia]. }
  destruct (Hcols w (Nat.le_refl _)) as [Hlen Hall].
  split; [assumption |].
  intros y x c Hb Hx Hc. apply Hall; try assumption.
  unfold stored_before in *. fold w in Hx. lia.
Qed.

Lemma rows_inv (n startY : nat) (result : list Z) :
  (startY + n <= h)%nat ->
  buffer_inv imageData p startY 0 result ->
  buffer_inv imageData p (startY + n) 0
    (fold_left (Worker.processRow imageData p r M) (seq startY n) result).
Proof.
  revert startY result. induction n as [| n IH]; intros startY result Hn Hinv.
  - now rewrite Nat.add_0_r.
  - simpl. rewrite <- Nat.add_succ_comm.
    apply IH; [lia |]. apply processRow_inv; [lia | assumption].
Qed.

Lemma chained_le (s e : nat) (cs : list (nat * nat)) : chained s cs e -> (s <= e)%nat.
Proof. induction 1; lia. Qed.

Lemma chunks_inv (cs : list (nat * nat)) (s e : nat) :
  chained s cs e -> (e <= h)%nat ->
  forall result posted,
    buffer_inv imageData p s 0 result ->
    buffer_inv imageData p e 0
      (fst (fold_left (fun st '(startY, endY) =>
                         Worker.processChunk imageData p r M startY endY st)
              cs (result, posted))).
Proof.
  induction 1 as [s | s m e l Hsm Hch IH]; intros He result posted Hinv.
  - exact Hinv.
  - cbn [fold_left]. unfold Worker.processChunk at 2.
    apply IH; [assumption |].
    pose proof (chained_le _ _ _ Hch) as Hm.
    replace m with (s + (m - s))%nat at 1 by lia.
    apply rows_inv; [lia | assumption].
Qed.

Lemma copyPixel_untouched (Y X : nat) (result : list Z) :
  (X < w)%nat ->
  untouched_after p Y X result ->
  untouched_after p Y (S X) (Worker.copyPixel imageData p r M Y X result).
Proof.
  intros HX Hun y x c Hnb Hy Hx Hc. fold w in Hx |- *.
  rewrite copyPixel_other.
  - apply Hun; try assumption. unfold stored_before in *. lia.
  - right. unfold stored_before in Hnb. clearbody w h.
    destruct (Nat.lt_trichotomy y Y) as [Hlt | [-> | Hgt]].
    + lia.
    + lia.
    + assert ((Y + 1) * w <= y * w)%nat by (apply Nat.mul_le_mono_r; lia). lia.
Qed.

Lemma processRow_untouched (Y : nat) (result : list Z) :
  untouched_after p Y 0 result ->
  untouched_after p (S Y) 0 (Worker.processRow imageData p r M result Y).
Proof.
  intros Hun. unfold Worker.processRow. fold w.
  assert (forall n, (n <= w)%nat ->
            untouched_after p Y n
              (fold_left (fun res x => Worker.copyPixel imageData p r M Y x res)
                 (seq 0 n) result)) as Hcols.
  { induction n as [| n IH]; intros Hn; [exact Hun |].
    rewrite seq_S, fold_left_app. simpl.
    apply copyPixel_untouched; [lia | apply IH; lia]. }
  intros y x c Hnb Hy Hx Hc. apply (Hcols w (Nat.le_refl _)); try assumption.
  unfold stored_before in *. fold w in Hx. lia.
Qed.

Lemma rows_untouched (n startY : nat) (result : list Z) :
  untouched_after p startY 0 result ->
  untouched_after p (startY + n) 0
    (fold_left (Worker.processRow imageData p r M) (seq startY n) result).
Proof.
  revert startY result. induction n as [| n IH]; intros startY result Hun.
  - now rewrite Nat.add_0_r.
  - simpl. rewrite <- Nat.add_succ_comm.
    apply IH. now apply processRow_untouched.
Qed.

Lemma chunks_untouched (cs : list (nat * nat)) (s e : nat) :
  chained s cs e ->
  forall result posted,
    untouched_after p s 0 result ->
    untouched_after p e 0
      (fst (fold_left (fun st '(startY, endY) =>
                         Worker.processChunk imageData p r M startY endY st)
              cs (result, posted))).
Proof.
  induction 1 as [s | s m e l Hsm Hch IH]; intros result posted Hun.
  - exact Hun.
  - cbn [fold_left]. unfold Worker.processChunk at 2.
    apply IH.
    replace m with (s + (m - s))%nat at 1 by lia.
    now apply rows_untouched.
Qed.

Lemma chunks_posted (cs : list (nat * nat)) :
  forall result posted,
    snd (fold_left (fun st '(startY, endY) =>
                      Worker.processChunk imageData p r M startY endY st)
           cs (result, posted)) =
    posted ++ map (fun e => Worker.progress (js_div (INR e) (INR h))) (map snd cs).
Proof.
  induction cs as [| [s e] cs IH]; intros result posted.
  - simpl. now rewrite app_nil_r.
  - cbn [fold_left]. unfold Worker.processChunk at 2.
    rewrite IH. rewrite <- app_assoc. reflexivity.
Qed.

End Loops.

(** The ten bands, in the order of the calls. *)
Lemma chunks_bands (h : nat) :
  Worker.chunks h =
  [ (0, h / 10); (h / 10, 2 * (h / 10)); (2 * (h / 10), 3 * (h / 10));
    (3 * (h / 10), 4 * (h / 10)); (4 * (h / 10), 5 * (h / 10));
    (5 * (h / 10), 6 * (h / 10)); (6 * (h / 10), 7 * (h / 10));
    (7 * (h / 10), 8 * (h / 10)); (8 * (h / 10), 9 * (h / 10));
    (9 * (h / 10), h) ]%nat.
Proof.
  unfold Worker.chunks. cbn [seq map Nat.eqb].
  generalize (h / 10)%nat. intros cs.
  repeat (apply f_equal2; [apply f_equal2; lia |]). reflexivity.
Qed.

Lemma nine_chunks_le (h : nat) : (9 * (h / 10) <= h)%nat.
Proof.
  pose proof (Nat.div_mod_eq h 10). lia.
Qed.

Lemma chunks_chained (h : nat) : chained 0 (Worker.chunks h) h.
Proof.
  rewrite chunks_bands. pose proof (nine_chunks_le h) as H9.
  generalize dependent (h / 10)%nat. intros cs H9.
  repeat (apply chained_cons; [lia |]). apply chained_nil.
Qed.

Lemma buffer_inv_init (imageData : Worker.ImageData) (p : Worker.Params) :
  buffer_inv imageData p 0 0
    (replicate (Worker.w_proj p * Worker.h_proj p * 4) 0%Z).
Proof.
  split.
  - apply length_replicate.
  - intros y x c Hb. unfold stored_before in Hb. lia.
Qed.

(** One evaluation posts one progress message per band, then the completed
    buffer, which holds the copied bytes of every output pixel. *)
Lemma onmessage_spec (imageData : Worker.ImageData) (p : Worker.Params) :
  exists result,
    Worker.onmessage imageData p =
      map (fun e => Worker.progress (js_div (INR e) (INR (Worker.h_proj p))))
        (map snd (Worker.chunks (Worker.h_proj p)))
      ++ [Worker.done result]
    /\ buffer_inv imageData p (Worker.h_proj p) 0 result.
Proof.
  unfold Worker.onmessage.
  pose proof (chunks_inv imageData p _ _ _ (chunks_chained (Worker.h_proj p))
                (Nat.le_refl _) _ [] (buffer_inv_init imageData p)) as Hinv.
  pose proof (chunks_posted imageData p (Worker.chunks (Worker.h_proj p))
                (replicate (Worker.w_proj p * Worker.h_proj p * 4) 0%Z) []) as Hposted.
  fold (Worker.run imageData p) in Hinv, Hposted.
  destruct (Worker.run imageData p) as [result posted].
  simpl in Hinv, Hposted. subst posted.
  exists result. split; [reflexivity | exact Hinv].
Qed.

(** The first [n] bands end at [band_end h n] and leave no gap. *)
Lemma take_chunks_chained (h n : nat) :
  chained 0 (take n (Worker.chunks h)) (band_end h n) /\ (band_end h n <= h)%nat.
Proof.
  rewrite chunks_bands. pose proof (nine_chunks_le h) as H9. unfold band_end.
  generalize dependent (h / 10)%nat. intros cs H9.
  assert (forall s e, s = e -> chained s [] e) as Hnil
    by (intros s e ->; apply chained_nil).
  do 11 (destruct n as [| n];
         [cbn [firstn Nat.leb];
          split; [repeat (apply chained_cons; [lia |]); apply Hnil; lia | lia] |]).
  cbn [firstn Nat.leb].
  split; [repeat (apply chained_cons; [lia |]); apply Hnil; lia | lia].
Qed.

Lemma untouched_init (p : Worker.Params) :
  untouched_after p 0 0 (replicate (Worker.w_proj p * Worker.h_proj p * 4) 0%Z).
Proof.
  intros y x c _ Hy Hx Hc. apply lookup_replicate_2.
  assert ((y + 1) * Worker.w_proj p <= Worker.h_proj p * Worker.w_proj p)%nat
    by (apply Nat.mul_le_mono_r; lia).
  lia.
Qed.

(** The state between two bands: one message per processed band, the rows
    of the processed bands stored, the other rows still zero. *)
Lemma after_bands_spec (imageData : Worker.ImageData) (p : Worker.Params) (n : nat) :
  snd (after_bands imageData p n) =
    map (fun '(_, endY) =>
           Worker.progress (js_div (INR endY) (INR (Worker.h_proj p))))
      (take n (Worker.chunks (Worker.h_proj p)))
  /\ buffer_inv imageData p (band_end (Worker.h_proj p) n) 0
       (fst (after_bands imageData p n))
  /\ untouched_after p (band_end (Worker.h_proj p) n) 0
       (fst (after_bands imageData p n)).
Proof.
  destruct (take_chunks_chained (Worker.h_proj p) n) as [Hch Hle].
  unfold after_bands. split; [| split].
  - rewrite chunks_posted. simpl. rewrite map_map.
    apply map_ext. now intros [s e].
  - apply (chunks_inv imageData p _ _ _ Hch Hle). apply buffer_inv_init.
  - apply (chunks_untouched imageData p _ _ _ Hch). apply untouched_init.
Qed.

Lemma run_after_bands (imageData : Worker.ImageData) (p : Worker.Params) :
  Worker.run imageData p = after_bands imageData p 10.
Proof.
  unfold Worker.run, after_bands. now rewrite chunks_bands.
Qed.

Lemma after_bands_step (imageData : Worker.ImageData) (p : Worker.Params) (n : nat) :
  (n < 10)%nat ->
  after_bands imageData p (S n) =
  Worker.processChunk imageData p (Worker.radius p)
    (Worker.rot_mat (Worker.alpha p) (Worker.beta p) (Worker.gamma p))
    (band_end (Worker.h_proj p) n) (band_end (Worker.h_proj p) (S n))
    (after_bands imageData p n).
Proof.
  intros Hn. unfold after_bands, band_end. rewrite chunks_bands.
  generalize (Worker.h_proj p / 10)%nat. intros cs.
  do 10 (destruct n as [| n]; [cbn [firstn fold_left Nat.leb]; f_equal; lia |]).
  lia.
Qed.

(** ** A source of one colour *)

Lemma solid_lookup (pixel : list Z) (n q c : nat) :
  length pixel = 4%nat -> (q < n)%nat -> (c < 4)%nat ->
  concat (replicate n pixel) !! (q * 4 + c)%nat = pixel !! c.
Proof.
  intros Hlen. revert q. induction n as [| n IH]; intros q Hq Hc; [lia |].
  cbn [replicate concat].
  destruct q as [| q].
  - rewrite lookup_app_l by lia. reflexivity.
  - rewrite lookup_app_r by lia. rewrite Hlen.
    replace (S q * 4 + c - 4)%nat with (q * 4 + c)%nat by lia.
    apply IH; lia.
Qed.

Lemma copied_byte_solid (pixel : list Z) (w_img h_img : nat) (p : Worker.Params)
    (y x c : nat) :
  length pixel = 4%nat -> (0 < w_img)%nat -> (0 < h_img)%nat ->
  0 < Worker.scale p ->
  (y < Worker.h_proj p)%nat -> (x < Worker.w_proj p)%nat -> (c < 4)%nat ->
  copied_byte (solid_image pixel w_img h_img) p y x c = to_uint8_clamped (pixel !! c).
Proof.
  intros Hlen Hw Hh Hs Hy Hx Hc. unfold copied_byte.
  assert (0 < Worker.radius p)%R as Hr by (apply radius_pos; [assumption | lia | lia]).
  destruct (projection_in_bounds y x (Worker.radius p)
              (Worker.height (solid_image pixel w_img h_img))
              (Worker.width (solid_image pixel w_img h_img))
              (Worker.h_proj p) (Worker.w_proj p) (Worker.offset_hor p)
              (Worker.offset_ver p) (Worker.alpha p) (Worker.beta p) (Worker.gamma p)
              Hr) as (i & j & -> & Hi & Hj); [simpl; lia | simpl; lia |].
  simpl in Hi, Hj. simpl.
  destruct (Z.ltb_spec ((i * Z.of_nat w_img + j) * 4 + Z.of_nat c) 0) as [Hneg | _];
    [nia |].
  f_equal.
  replace (Z.to_nat ((i * Z.of_nat w_img + j) * 4 + Z.of_nat c))
    with ((Z.to_nat i * w_img + Z.to_nat j) * 4 + c)%nat by nia.
  apply solid_lookup; [assumption | | assumption].
  assert ((Z.to_nat i + 1) * w_img <= h_img * w_img)%nat
    by (apply Nat.mul_le_mono_r; lia).
  lia.
Qed.

(** ** The claims on the raster evaluation *)

(** C4. In the scenario [outputWidth = 800], [outputHeight = 600],
    [scale = 1], no rotation, offsets 0.5, on a 400 x 200 source whose
    every pixel is (255, 0, 0, 255), the evaluation ends with a completion
    message whose buffer has 800 * 600 * 4 bytes, and every channel [c] of
    every output pixel [(y, x)] holds the channel [c] of that colour. *)
Theorem solid_red_scenario (y x c : nat) :
  (y < 600)%nat -> (x < 800)%nat -> (c < 4)%nat ->
  exists posted result,
    Worker.onmessage (solid_image red 400 200) scenario_params
    = posted ++ [Worker.done result]
    /\ length result = (800 * 600 * 4)%nat
    /\ result !! ((y * 800 + x) * 4 + c)%nat = red !! c.
Proof.
  intros Hy Hx Hc.
  destruct (onmessage_spec (solid_image red 400 200) scenario_params)
    as (result & Hmsg & Hlen & Hpix).
  eexists _, result. split; [exact Hmsg |]. split; [exact Hlen |].
  transitivity (Some (copied_byte (solid_image red 400 200) scenario_params y x c)).
  { apply (Hpix y x c); [left; exact Hy | exact Hx | exact Hc]. }
  rewrite copied_byte_solid;
    [| reflexivity | lia | lia | simpl; lra | exact Hy | exact Hx | exact Hc].
  destruct c as [| [| [| [| c]]]]; try lia; reflexivity.
Qed.

Lemma solid_red_scenario_witness :
  exists posted result,
    Worker.onmessage (solid_image red 400 200) scenario_params
    = posted ++ [Worker.done result]
    /\ length result = (800 * 600 * 4)%nat
    /\ result !! ((0 * 800 + 0) * 4 + 0)%nat = red !! 0%nat.
Proof.
  apply (solid_red_scenario 0 0 0); lia.
Defined.

Lemma js_div_INR (e h : nat) :
  (0 < h)%nat -> js_div (INR e) (INR h) = Some (INR e / INR h).
Proof.
  intros Hh. unfold js_div.
  destruct (Req_dec_T (INR h) 0) as [H0 | _]; [| reflexivity].
  apply lt_0_INR in Hh. lra.
Qed.

Lemma js_div_fraction (e h : nat) (q : R) :
  (0 < h)%nat -> IZR (Z.of_nat e) = q * IZR (Z.of_nat h) ->
  js_div (INR e) (INR h) = Some q.
Proof.
  intros Hh Hq. rewrite js_div_INR by assumption. f_equal.
  rewrite !INR_IZR_INZ.
  assert (0 < IZR (Z.of_nat h)) by (apply IZR_lt; lia).
  rewrite Hq. field. lra.
Qed.

Ltac of_nat_values :=
  repeat match goal with
         | |- context [Z.of_nat ?n] =>
             let z := eval vm_compute in (Z.of_nat n) in
             change (Z.of_nat n) with z
         end.

Lemma progress_values_600 :
  map (fun '(_, endY) => Worker.progress (js_div (INR endY) (INR 600)))
    (Worker.chunks 600)
  = map Worker.progress
      [Some 0.1; Some 0.2; Some 0.3; Some 0.4; Some 0.5;
       Some 0.6; Some 0.7; Some 0.8; Some 0.9; Some 1].
Proof.
  rewrite chunks_bands.
  change (600 / 10)%nat with 60%nat.
  cbn [map].
  repeat (apply f_equal2; [f_equal |]); try reflexivity.
  all: apply js_div_fraction; [lia | of_nat_values; lra].
Qed.

(** C5. For every output height the rows are cut into ten contiguous bands
    of [floor (outputHeight / 10)] rows, the last one taking the remainder.
    The bands are processed in order: the call for band [n + 1] starts from
    the state the call for band [n] left, and after [n] bands exactly [n]
    progress messages have been posted, with the values
    [bandEndRow / outputHeight], every pixel of the rows above the end of
    band [n] holds the bytes copied for it, and every pixel of the rows from
    there on is still zero.  The completion message comes last and carries
    the buffer left by the tenth band, with every row stored.  For
    [outputHeight = 600] the values are 0.1, 0.2, ..., 1.0, in that order,
    before the completion message. *)
Theorem bands_and_progress :
  (forall (imageData : Worker.ImageData) (p : Worker.Params),
      let h := Worker.h_proj p in
      let chunkSize := (h / 10)%nat in
      let r := Worker.radius p in
      let rot_mat := Worker.rot_mat (Worker.alpha p) (Worker.beta p) (Worker.gamma p) in
      Worker.chunks h =
        [ (0, chunkSize); (chunkSize, 2 * chunkSize); (2 * chunkSize, 3 * chunkSize);
          (3 * chunkSize, 4 * chunkSize); (4 * chunkSize, 5 * chunkSize);
          (5 * chunkSize, 6 * chunkSize); (6 * chunkSize, 7 * chunkSize);
          (7 * chunkSize, 8 * chunkSize); (8 * chunkSize, 9 * chunkSize);
          (9 * chunkSize, h) ]%nat
      /\ chained 0 (Worker.chunks h) h
      /\ (h - 9 * chunkSize = chunkSize + h mod 10)%nat
      /\ Forall (fun n =>
                   Worker.chunks h !! n = Some (band_end h n, band_end h (S n))
                   /\ after_bands imageData p (S n) =
                      Worker.processChunk imageData p r rot_mat
                        (band_end h n) (band_end h (S n))
                        (after_bands imageData p n))
           (seq 0 10)
      /\ (forall n : nat,
            snd (after_bands imageData p n) =
              map (fun '(_, endY) => Worker.progress (js_div (INR endY) (INR h)))
                (take n (Worker.chunks h))
            /\ buffer_inv imageData p (band_end h n) 0
                 (fst (after_bands imageData p n))
            /\ untouched_after p (band_end h n) 0
                 (fst (after_bands imageData p n)))
      /\ Worker.run imageData p = after_bands imageData p 10
      /\ Worker.onmessage imageData p =
           map (fun '(_, endY) => Worker.progress (js_div (INR endY) (INR h)))
             (Worker.chunks h)
           ++ [Worker.done (fst (Worker.run imageData p))]
      /\ buffer_inv imageData p h 0 (fst (Worker.run imageData p)))
  /\ (forall (imageData : Worker.ImageData) (w_proj : nat)
        (scale alpha beta gamma offset_hor offset_ver : R),
        let p :=
          Worker.mkParams w_proj 600 scale alpha beta gamma offset_hor offset_ver in
        let values :=
          [Some 0.1; Some 0.2; Some 0.3; Some 0.4; Some 0.5;
           Some 0.6; Some 0.7; Some 0.8; Some 0.9; Some 1] in
        (forall n : nat,
            snd (after_bands imageData p n) = map Worker.progress (take n values))
        /\ Worker.onmessage imageData p =
           map Worker.progress values
           ++ [Worker.done (fst (Worker.run imageData p))]).
Proof.
  assert (forall imageData p,
             Worker.onmessage imageData p =
             map (fun '(_, endY) =>
                    Worker.progress (js_div (INR endY) (INR (Worker.h_proj p))))
               (Worker.chunks (Worker.h_proj p))
             ++ [Worker.done (fst (Worker.run imageData p))]) as Hmsg.
  { intros imageData p. unfold Worker.onmessage.
    pose proof (after_bands_spec imageData p 10) as (Hposted & _).
    rewrite <- run_after_bands in Hposted.
    rewrite firstn_all2 in Hposted
      by (unfold Worker.chunks; rewrite length_map, length_seq; lia).
    destruct (Worker.run imageData p) as [result posted].
    simpl in Hposted. now subst posted. }
  split.
  - intros imageData p h chunkSize r rot_mat.
    split; [apply chunks_bands |].
    split; [apply chunks_chained |].
    split.
    { unfold chunkSize. pose proof (Nat.div_mod_eq h 10). lia. }
    split.
    { repeat match goal with
             | |- Forall _ (seq _ _) => cbn [seq]
             | |- Forall _ _ => constructor
             | |- _ /\ _ => split
             end.
      all: try (apply after_bands_step; lia).
      all: unfold h; rewrite chunks_bands; unfold band_end;
        cbn [lookup list_lookup Nat.leb]; do 2 f_equal; lia. }
    split; [intros n; apply after_bands_spec |].
    split; [apply run_after_bands |].
    split; [apply Hmsg |].
    rewrite run_after_bands.
    pose proof (after_bands_spec imageData p 10) as (_ & Hinv & _).
    exact Hinv.
  - intros imageData w_proj scale alpha beta gamma offset_hor offset_ver p values.
    split.
    + intros n. pose proof (after_bands_spec imageData p n) as (Hposted & _).
      rewrite Hposted. unfold values.
      change (Worker.h_proj p) with 600%nat.
      rewrite <- !firstn_map. f_equal. apply progress_values_600.
    + rewrite Hmsg. unfold values.
      change (Worker.h_proj p) with 600%nat.
      now rewrite progress_values_600.
Qed.

Lemma sorted_fractions (l : list nat) (h : nat) :
  (0 < h)%nat -> StronglySorted lt l ->
  StronglySorted Rlt (map (fun e => INR e / INR h) l).
Proof.
  intros Hh Hl. apply lt_0_INR in Hh.
  induction Hl as [| a l Hl IH Ha]; simpl; constructor; [exact IH |].
  rewrite Forall_map. eapply Forall_impl; [exact Ha |].
  intros b Hab. simpl. apply lt_INR in Hab.
  unfold Rdiv. apply Rmult_lt_compat_r; [now apply Rinv_0_lt_compat | assumption].
Qed.

Lemma unit_fractions (l : list nat) (h : nat) :
  Forall (fun e => 0 < e <= h)%nat l ->
  Forall (fun v => 0 < v <= 1) (map (fun e => INR e / INR h) l).
Proof.
  intros Hl. rewrite Forall_map. eapply Forall_impl; [exact Hl |].
  intros e [He0 Heh]. simpl.
  assert (0 < INR e) by now apply lt_0_INR.
  assert (INR e <= INR h) by now apply le_INR.
  assert (0 < INR h) by lra.
  split.
  - now apply Rdiv_lt_0_compat.
  - apply Rmult_le_reg_r with (INR h); [assumption |].
    unfold Rdiv. rewrite Rmult_assoc, Rinv_l by lra. lra.
Qed.

Lemma posted_fractions (l : list nat) (h : nat) :
  (0 < h)%nat ->
  map (fun e => Worker.progress (js_div (INR e) (INR h))) l
  = map (fun v => Worker.progress (Some v)) (map (fun e => INR e / INR h) l).
Proof.
  intros Hh. rewrite map_map. apply map_ext. intros e.
  now rewrite js_div_INR.
Qed.

Lemma band_ends_increasing (h : nat) :
  (10 <= h)%nat ->
  StronglySorted lt (map snd (Worker.chunks h))
  /\ Forall (fun e => 0 < e <= h)%nat (map snd (Worker.chunks h)).
Proof.
  intros Hh. rewrite chunks_bands. cbn [map snd].
  pose proof (Nat.div_mod_eq h 10) as Hd.
  pose proof (Nat.mod_upper_bound h 10) as Hm.
  generalize dependent (h mod 10)%nat. generalize dependent (h / 10)%nat.
  intros cs m Hd Hm.
  split;
    repeat match goal with
           | |- StronglySorted _ _ => constructor
           | |- Forall _ _ => constructor
           end; lia.
Qed.

(** C6, as stated, fails: for [outputHeight = 5] the bands have
    [floor (5 / 10) = 0] rows, the first nine progress values are 0, and the
    notifications are not strictly increasing values of [(0, 1]]. *)
Lemma progress_not_strict_for_small_height :
  ~ progress_ordering
      (Worker.onmessage (solid_image red 1 1) (Worker.mkParams 1 5 1 0 0 0 0.5 0.5)).
Proof.
  destruct (onmessage_spec (solid_image red 1 1)
              (Worker.mkParams 1 5 1 0 0 0 0.5 0.5)) as (result & Hmsg & _).
  intros (values & result' & Heq & _ & Hall).
  rewrite Hmsg in Heq. apply app_inj_tail in Heq as [Hmap _].
  cbn [Worker.h_proj] in Hmap. rewrite chunks_bands in Hmap.
  change (5 / 10)%nat with 0%nat in Hmap. cbn [map snd] in Hmap.
  destruct values as [| v values]; [discriminate |].
  cbn [map] in Hmap. injection Hmap as Hv _.
  change (js_div (INR 0) (INR 5) = Some v) in Hv.
  rewrite (js_div_fraction 0 5 0) in Hv by (lia || (of_nat_values; lra)).
  injection Hv as <-.
  apply Forall_cons_1 in Hall as [Hpos _]. lra.
Qed.

(** C6, amended. For every [outputHeight >= 10] the progress values of one
    evaluation are strictly increasing, each lies in [(0, 1]], and all of
    them precede the one completion message. *)
Theorem progress_strictly_increasing (imageData : Worker.ImageData)
    (p : Worker.Params) :
  (10 <= Worker.h_proj p)%nat ->
  progress_ordering (Worker.onmessage imageData p).
Proof.
  intros Hh.
  destruct (onmessage_spec imageData p) as (result & Hmsg & _).
  destruct (band_ends_increasing _ Hh) as [Hsorted Hunit].
  exists (map (fun e => INR e / INR (Worker.h_proj p))
            (map snd (Worker.chunks (Worker.h_proj p)))), result.
  split; [| split].
  - rewrite Hmsg. f_equal. apply posted_fractions. lia.
  - apply sorted_fractions; [lia | assumption].
  - now apply unit_fractions.
Qed.

Lemma progress_strictly_increasing_witness :
  progress_ordering (Worker.onmessage (solid_image red 400 200) scenario_params).
Proof.
  apply (progress_strictly_increasing (solid_image red 400 200) scenario_params).
  simpl. lia.
Defined.

(** * Further properties of the worker *)

(** The whole buffer is determined by the copied bytes. *)
Lemma buffer_inv_lookup (imageData : Worker.ImageData) (p : Worker.Params)
    (result : list Z) (k : nat) :
  buffer_inv imageData p (Worker.h_proj p) 0 result ->
  (k < Worker.w_proj p * Worker.h_proj p * 4)%nat ->
  result !! k
  = Some (copied_byte imageData p (k / 4 / Worker.w_proj p)
            ((k / 4) mod Worker.w_proj p) (k mod 4)).
Proof.
  intros [Hlen Hpix] Hk.
  set (w := Worker.w_proj p) in *. set (h := Worker.h_proj p) in *.
  assert (0 < w)%nat as Hw by (destruct w; lia).
  pose proof (Nat.div_mod_eq k 4) as Hk4.
  pose proof (Nat.mod_upper_bound k 4) as Hc.
  pose proof (Nat.div_mod_eq (k / 4) w) as Hq.
  pose proof (Nat.mod_upper_bound (k / 4) w) as Hx.
  set (q := (k / 4)%nat) in *. set (c := (k mod 4)%nat) in *.
  set (y := (q / w)%nat) in *. set (x := (q mod w)%nat) in *.
  assert (y < h)%nat as Hy.
  { destruct (Nat.lt_ge_cases y h) as [Hlt | Hge]; [assumption |].
    assert (w * h <= w * y)%nat by (apply Nat.mul_le_mono_l; assumption).
    clearbody w h y x q c. lia. }
  replace k with ((y * w + x) * 4 + c)%nat at 1 by (clearbody w h y x q c; lia).
  apply Hpix; [left; exact Hy | lia | lia].
Qed.

Lemma projection_zero_radius (pix : nat * nat) (h_img w_img : Z) (h_proj w_proj : nat)
    (offset_hor offset_ver : R) (M : Worker.mat) :
  Worker.projection pix 0 h_img w_img h_proj w_proj offset_hor offset_ver M = None.
Proof.
  destruct pix as [row col]. unfold Worker.projection.
  destruct (Worker.axisRotate _ _) as [[q0 q1] q2].
  unfold Worker.getPixOnImg, js_div.
  destruct (Req_dec_T 0 0) as [_ | Hne]; [reflexivity | lra].
Qed.

(** X2. With [scale = 0] the radius is 0, no source coordinate is a number,
    and the evaluation ends with a buffer of the full size that holds only
    zeros. *)
Theorem raster_zero_scale_blank (imageData : Worker.ImageData) (p : Worker.Params) :
  Worker.scale p = 0 ->
  exists posted,
    Worker.onmessage imageData p
    = posted ++ [Worker.done (replicate (Worker.w_proj p * Worker.h_proj p * 4) 0%Z)].
Proof.
  intros Hs.
  destruct (onmessage_spec imageData p) as (result & Hmsg & Hinv).
  eexists. rewrite Hmsg. do 3 f_equal.
  apply list_eq. intros k.
  destruct (Nat.lt_ge_cases k (Worker.w_proj p * Worker.h_proj p * 4)) as [Hk | Hk].
  - rewrite (buffer_inv_lookup imageData p result k Hinv Hk).
    rewrite lookup_replicate_2 by exact Hk. f_equal.
    unfold copied_byte.
    replace (Worker.radius p) with 0 by (unfold Worker.radius; rewrite Hs; ring).
    now rewrite projection_zero_radius.
  - destruct Hinv as [Hlen _].
    rewrite !lookup_ge_None_2; [reflexivity | rewrite length_replicate; lia | lia].
Qed.

Lemma raster_zero_scale_blank_witness :
  exists posted,
    Worker.onmessage (solid_image red 1 1) (Worker.mkParams 2 3 0 0 0 0 0.5 0.5)
    = posted ++ [Worker.done (replicate (2 * 3 * 4) 0%Z)].
Proof.
  apply (raster_zero_scale_blank (solid_image red 1 1)
           (Worker.mkParams 2 3 0 0 0 0 0.5 0.5)).
  reflexivity.
Defined.

(** X1. Nearest-neighbour copy.  For a source buffer of bytes, the buffer
    of the completion message has [w_proj * h_proj * 4] bytes, and channel
    [c] of the output pixel [(y, x)] is decided by what [projection] returns
    for [(y, x)]: for a coordinate [(i, j)] it is the byte of the source
    buffer at [(i * width + j) * 4 + c], or 0 when that index is off the
    buffer; it is 0 when [projection] returns no coordinate. *)
Theorem raster_copies_projected_pixels (imageData : Worker.ImageData)
    (p : Worker.Params) (y x c : nat) :
  (y < Worker.h_proj p)%nat -> (x < Worker.w_proj p)%nat -> (c < 4)%nat ->
  Forall (fun b => 0 <= b <= 255)%Z (Worker.data imageData) ->
  exists posted result,
    Worker.onmessage imageData p = posted ++ [Worker.done result]
    /\ length result = (Worker.w_proj p * Worker.h_proj p * 4)%nat
    /\ result !! ((y * Worker.w_proj p + x) * 4 + c)%nat =
       match
         Worker.projection (y, x) (Worker.radius p)
           (Worker.height imageData) (Worker.width imageData)
           (Worker.h_proj p) (Worker.w_proj p)
           (Worker.offset_hor p) (Worker.offset_ver p)
           (Worker.rot_mat (Worker.alpha p) (Worker.beta p) (Worker.gamma p))
       with
       | Some (i, j) =>
           Some (default 0%Z
                   (typed_get (Worker.data imageData)
                      (Some ((i * Worker.width imageData + j) * 4 + Z.of_nat c)%Z)))
       | None => Some 0%Z
       end.
Proof.
  intros Hy Hx Hc Hbytes.
  destruct (onmessage_spec imageData p) as (result & Hmsg & Hrlen & Hpix).
  exists (map (fun e => Worker.progress (js_div (INR e) (INR (Worker.h_proj p))))
            (map snd (Worker.chunks (Worker.h_proj p)))), result.
  split; [exact Hmsg |]. split; [exact Hrlen |].
  rewrite (Hpix y x c); [| left; exact Hy | exact Hx | exact Hc].
  unfold copied_byte.
  destruct (Worker.projection _ _ _ _ _ _ _ _ _) as [[i j] |]; [| reflexivity].
  cbn [Worker.imgIndex Worker.index_plus]. f_equal.
  destruct (typed_get (Worker.data imageData)
              (Some ((i * Worker.width imageData + j) * 4 + Z.of_nat c)%Z))
    as [b |] eqn:Hb; [| reflexivity].
  cbn [to_uint8_clamped default from_option]. unfold Datatypes.id.
  assert (0 <= b <= 255)%Z; [| lia].
  unfold typed_get in Hb.
  destruct ((i * Worker.width imageData + j) * 4 + Z.of_nat c <? 0)%Z; [discriminate |].
  rewrite Forall_forall in Hbytes.
  apply Hbytes. eapply list_elem_of_lookup_2; eassumption.
Qed.

Lemma raster_copies_projected_pixels_witness :
  let imageData :=
    Worker.mkImageData
      [10; 20; 30; 255; 40; 50; 60; 255; 70; 80; 90; 255; 100; 110; 120; 255]%Z
      2 2 in
  let p := Worker.mkParams 4 3 1 0 0 0 0.5 0.5 in
  exists posted result,
    Worker.onmessage imageData p = posted ++ [Worker.done result]
    /\ length result = (4 * 3 * 4)%nat
    /\ result !! ((1 * 4 + 2) * 4 + 1)%nat =
       match
         Worker.projection (1%nat, 2%nat) (Worker.radius p) 2 2 3 4 0.5 0.5
           (Worker.rot_mat 0 0 0)
       with
       | Some (i, j) =>
           Some (default 0%Z
                   (typed_get (Worker.data imageData)
                      (Some ((i * 2 + j) * 4 + Z.of_nat 1)%Z)))
       | None => Some 0%Z
       end.
Proof.
  intros imageData p.
  apply (raster_copies_projected_pixels imageData p 1 2 1);
    try (simpl; lia).
  simpl. repeat constructor; lia.
Defined.

Lemma monotone_fractions (l : list nat) (h : nat) :
  (0 < h)%nat -> StronglySorted le l ->
  StronglySorted Rle (map (fun e => INR e / INR h) l).
Proof.
  intros Hh Hl. apply lt_0_INR in Hh.
  induction Hl as [| a l Hl IH Ha]; simpl; constructor; [exact IH |].
  rewrite Forall_map. eapply Forall_impl; [exact Ha |].
  intros b Hab. simpl. apply le_INR in Hab.
  unfold Rdiv. apply Rmult_le_compat_r; [| assumption].
  left. now apply Rinv_0_lt_compat.
Qed.

Lemma closed_unit_fractions (l : list nat) (h : nat) :
  (0 < h)%nat -> Forall (fun e => e <= h)%nat l ->
  Forall (fun v => 0 <= v <= 1) (map (fun e => INR e / INR h) l).
Proof.
  intros Hh Hl. rewrite Forall_map. eapply Forall_impl; [exact Hl |].
  intros e Heh. simpl.
  pose proof (pos_INR e). apply le_INR in Heh. apply lt_0_INR in Hh.
  split.
  - apply Rmult_le_reg_r with (INR h); [assumption |].
    unfold Rdiv. rewrite Rmult_assoc, Rinv_l by lra. lra.
  - apply Rmult_le_reg_r with (INR h); [assumption |].
    unfold Rdiv. rewrite Rmult_assoc, Rinv_l by lra. lra.
Qed.

Lemma band_ends_monotone (h : nat) :
  StronglySorted le (map snd (Worker.chunks h))
  /\ Forall (fun e => e <= h)%nat (map snd (Worker.chunks h))
  /\ map snd (Worker.chunks h) !! 9%nat = Some h.
Proof.
  rewrite chunks_bands. cbn [map snd].
  pose proof (Nat.div_mod_eq h 10) as Hd.
  generalize dependent (h mod 10)%nat. generalize dependent (h / 10)%nat.
  intros cs m Hd.
  split; [| split; [| reflexivity]];
    repeat match goal with
           | |- StronglySorted _ _ => constructor
           | |- Forall _ _ => constructor
           end; lia.
Qed.

(** X3. For every [outputHeight >= 1] one evaluation posts exactly ten
    progress messages and then the completion message; the progress values
    never decrease, lie in [[0, 1]], and the last one is exactly 1. *)
Theorem progress_monotone (imageData : Worker.ImageData) (p : Worker.Params) :
  (1 <= Worker.h_proj p)%nat ->
  exists (values : list R) (result : list Z),
    Worker.onmessage imageData p
    = map (fun v => Worker.progress (Some v)) values ++ [Worker.done result]
    /\ length values = 10%nat
    /\ StronglySorted Rle values
    /\ Forall (fun v => 0 <= v <= 1) values
    /\ values !! 9%nat = Some 1.
Proof.
  intros Hh.
  destruct (onmessage_spec imageData p) as (result & Hmsg & _).
  destruct (band_ends_monotone (Worker.h_proj p)) as (Hsorted & Hle & Hlast).
  exists (map (fun e => INR e / INR (Worker.h_proj p))
            (map snd (Worker.chunks (Worker.h_proj p)))), result.
  split; [| split; [| split; [| split]]].
  - rewrite Hmsg. f_equal. apply posted_fractions. lia.
  - rewrite !length_map. unfold Worker.chunks. now rewrite length_map, length_seq.
  - apply monotone_fractions; [lia | assumption].
  - apply closed_unit_fractions; [lia | assumption].
  - assert (0 < INR (Worker.h_proj p)) as Hpos by (apply lt_0_INR; lia).
    rewrite chunks_bands. cbn [map snd]. simpl lookup.
    f_equal. field. lra.
Qed.

Lemma progress_monotone_witness :
  exists (values : list R) (result : list Z),
    Worker.onmessage (solid_image red 1 1) (Worker.mkParams 1 5 1 0 0 0 0.5 0.5)
    = map (fun v => Worker.progress (Some v)) values ++ [Worker.done result]
    /\ length values = 10%nat
    /\ StronglySorted Rle values
    /\ Forall (fun v => 0 <= v <= 1) values
    /\ values !! 9%nat = Some 1.
Proof.
  apply (progress_monotone (solid_image red 1 1) (Worker.mkParams 1 5 1 0 0 0 0.5 0.5)).
  simpl. lia.
Defined.

Lemma js_div_zero (a : R) : js_div a 0 = None.
Proof. unfold js_div. destruct (Req_dec_T 0 0); [reflexivity | lra]. Qed.

(** X4. An output of height 0: the worker posts ten progress messages
    whose value is not a number (0 / 0) and completes with an empty
    buffer. *)
Theorem raster_empty_output (imageData : Worker.ImageData) (p : Worker.Params) :
  Worker.h_proj p = 0%nat ->
  Worker.onmessage imageData p
  = replicate 10 (Worker.progress None) ++ [Worker.done []].
Proof.
  intros Hh.
  destruct (onmessage_spec imageData p) as (result & Hmsg & Hlen & _).
  rewrite Hmsg, Hh in *. rewrite Nat.mul_0_r in Hlen.
  apply nil_length_inv in Hlen. subst result. f_equal.
  rewrite chunks_bands. cbn [map snd replicate]. cbn [INR Nat.div Nat.mul Nat.add].
  change (0 / 10)%nat with 0%nat. cbn [Nat.mul Nat.add INR].
  now rewrite !js_div_zero.
Qed.

Lemma raster_empty_output_witness :
  Worker.onmessage (solid_image red 1 1) (Worker.mkParams 800 0 1 0 0 0 0.5 0.5)
  = replicate 10 (Worker.progress None) ++ [Worker.done []].
Proof.
  apply (raster_empty_output (solid_image red 1 1) (Worker.mkParams 800 0 1 0 0 0 0.5 0.5)).
  reflexivity.
Defined.

(** X8. Both poles are read from the top row.  A rotated point at or above
    the upper pole ([z >= r], clamped) has latitude fraction 0, and a point at
    the lower pole ([z = - r]) has latitude fraction 1, which the remainder
    wraps to 0: the row [h_img] is never returned and the lower pole is not
    read from the bottom row. *)
Theorem poles_read_top_row (x y z r : R) (h_img w_img : Z) :
  0 < r -> (0 < h_img)%Z -> (0 < w_img)%Z ->
  r <= z \/ z = - r ->
  exists j, Worker.getPixOnImg (x, y, z) r h_img w_img = Some (0%Z, j)
            /\ (0 <= j < w_img)%Z.
Proof.
  intros Hr Hh Hw Hz. pose proof PI_RGT_0 as Hpi.
  rewrite getPixOnImg_formula by (assumption || (destruct Hz; lra)).
  eexists. split; [| apply Z.mod_pos_bound; assumption].
  f_equal. f_equal.
  destruct Hz as [Hup | ->].
  - assert (Rmin z r = r) as -> by (unfold Rmin; destruct (Rle_dec z r); lra).
    replace (r / r) with 1 by (field; lra). rewrite acos_1.
    replace (0 / PI * IZR h_img) with (IZR 0 + 0) by (field; lra).
    rewrite Math_round_IZR by lra. apply Z.mod_0_l. lia.
  - assert (Rmin (- r) r = - r) as -> by (unfold Rmin; destruct (Rle_dec (- r) r); lra).
    replace (- r / r) with (- (1)) by (field; lra).
    rewrite acos_opp, acos_1.
    replace ((PI - 0) / PI * IZR h_img) with (IZR h_img + 0) by (field; lra).
    rewrite Math_round_IZR by lra. apply Z.mod_same. lia.
Qed.

Lemma poles_read_top_row_witness :
  exists j, Worker.getPixOnImg (0, 0, -1) 1 200 400 = Some (0%Z, j)
            /\ (0 <= j < 400)%Z.
Proof.
  apply (poles_read_top_row 0 0 (-1) 1 200 400); [lra | lia | lia | right; lra].
Defined.

(** X9. With a negative [scale] the radius is negative, and [getPixOnImg]
    never returns a source row other than 0.  A rotated point with [z >= r]
    is clamped to [r] by [if (z > r) z = r] (or is at [r]): the quotient is
    1, the latitude 0 and the row 0, with an in-bounds column.  A rotated
    point below [r] is not clamped: the quotient is above 1, [Math.acos]
    gives [NaN] and no coordinate is returned. *)
Theorem negative_scale_row_zero_or_none (p : Worker.Params)
    (h_img w_img : Z) (P : vec3) :
  Worker.scale p < 0 ->
  (0 < Worker.h_proj p)%nat -> (0 < Worker.w_proj p)%nat ->
  (0 < h_img)%Z -> (0 < w_img)%Z ->
  Worker.radius p < 0
  /\ (Worker.radius p <= snd P ->
      exists j,
        Worker.getPixOnImg P (Worker.radius p) h_img w_img = Some (0%Z, j)
        /\ (0 <= j < w_img)%Z)
  /\ (snd P < Worker.radius p ->
      Worker.getPixOnImg P (Worker.radius p) h_img w_img = None).
Proof.
  intros Hs Hy Hx Hh Hw. pose proof PI_RGT_0 as Hpi.
  assert (Worker.radius p < 0) as Hr.
  { unfold Worker.radius.
    assert (0 < INR (Nat.min (Worker.h_proj p) (Worker.w_proj p)))
      by (apply lt_0_INR; lia).
    assert (0 < INR (Nat.min (Worker.h_proj p) (Worker.w_proj p)) / 10)
      by (apply Rdiv_lt_0_compat; lra).
    nra. }
  set (r := Worker.radius p) in *.
  destruct P as [[q0 q1] q2]. cbn [snd].
  split; [exact Hr |]. split; intros Hq.
  - unfold Worker.getPixOnImg.
    assert ((if Rlt_dec r q2 then r else q2) = r) as ->
      by (destruct (Rlt_dec r q2); lra).
    unfold js_div. destruct (Req_dec_T r 0) as [| _]; [lra |].
    replace (r / r) with 1 by (field; lra).
    unfold Math_acos.
    destruct (Rle_dec (-1) 1); [| lra]. destruct (Rle_dec 1 1); [| lra].
    rewrite acos_1.
    replace (0 / PI * IZR h_img) with (IZR 0 + 0) by (field; lra).
    rewrite Math_round_IZR by lra.
    destruct (js_rem_nonneg 0 h_img) as [-> _]; [lia | assumption |].
    pose proof (longitude_in_range q1 q0) as Hcol.
    destruct (Math_round_bounds _ _ (scaled_in_range _ _ Hcol Hw)) as [Hj _].
    destruct (js_rem_nonneg _ _ Hj Hw) as [-> Hb].
    rewrite Z.mod_0_l by lia.
    eexists. split; [reflexivity | exact Hb].
  - unfold Worker.getPixOnImg.
    assert ((if Rlt_dec r q2 then r else q2) = q2) as ->
      by (destruct (Rlt_dec r q2); lra).
    unfold js_div. destruct (Req_dec_T r 0) as [| _]; [lra |].
    assert (1 < q2 / r) as Hgt.
    { replace (q2 / r) with ((- q2) / (- r)) by (field; lra).
      apply Rmult_lt_reg_r with (- r); [lra |].
      unfold Rdiv. rewrite Rmult_assoc, Rinv_l by lra. lra. }
    unfold Math_acos.
    destruct (Rle_dec (-1) (q2 / r)); [| reflexivity].
    destruct (Rle_dec (q2 / r) 1); [lra | reflexivity].
Qed.

Lemma negative_scale_row_zero_or_none_witness :
  let p := Worker.mkParams 800 600 (-1) 0 0 0 0.5 0.5 in
  Worker.radius p < 0
  /\ (Worker.radius p <= snd (30, 40, -50) ->
      exists j,
        Worker.getPixOnImg (30, 40, -50) (Worker.radius p) 200 400 = Some (0%Z, j)
        /\ (0 <= j < 400)%Z)
  /\ (snd (30, 40, -50) < Worker.radius p ->
      Worker.getPixOnImg (30, 40, -50) (Worker.radius p) 200 400 = None).
Proof.
  intros p.
  apply (negative_scale_row_zero_or_none p 200 400 (30, 40, -50));
    simpl; (lra || lia).
Defined.

(** X5. [getPointOnSphere] is the inverse stereographic projection: for a
    non-zero radius the returned point lies on the sphere of radius [r], it
    is never the pole opposite to the plane origin, and the plane point is
    recovered from it by the central projection [r * p / (r + pz)]; so
    different plane points give different sphere points. *)
Theorem getPointOnSphere_stereographic (x y z r : R) :
  r <> 0 ->
  let '(px, py, pz) := Worker.getPointOnSphere (x, y, z) r in
  px * px + py * py + pz * pz = r * r
  /\ r + pz <> 0
  /\ x = r * px / (r + pz)
  /\ y = r * py / (r + pz).
Proof.
  intros Hr. unfold Worker.getPointOnSphere.
  assert (0 < x ^ 2 + y ^ 2 + r ^ 2) as Hd by nra.
  set (d := x ^ 2 + y ^ 2 + r ^ 2) in *.
  assert (r + (2 * r ^ 2 / d - 1) * r = 2 * r ^ 3 / d) as Hsum by (field; lra).
  assert (2 * r ^ 3 / d <> 0) as Hne.
  { unfold Rdiv. apply Rmult_integral_contrapositive_currified.
    - assert (r ^ 3 <> 0) by (apply pow_nonzero; assumption). lra.
    - apply Rinv_neq_0_compat. lra. }
  split; [| split; [| split]].
  - unfold d. field. fold d. lra.
  - rewrite Hsum. exact Hne.
  - rewrite Hsum. field. split; lra.
  - rewrite Hsum. field. split; lra.
Qed.

Lemma getPointOnSphere_stereographic_witness :
  let '(px, py, pz) := Worker.getPointOnSphere (3, 4, 0) 60 in
  px * px + py * py + pz * pz = 60 * 60
  /\ 60 + pz <> 0
  /\ 3 = 60 * px / (60 + pz)
  /\ 4 = 60 * py / (60 + pz).
Proof.
  apply (getPointOnSphere_stereographic 3 4 0 60). lra.
Defined.

(** X6. [axisRotate] with [rot_mat] is an isometry: it preserves the scalar
    product of any two points, hence lengths and angles. *)
Theorem axisRotate_isometry (alpha beta gamma : R) (P Q : vec3) :
  let '(p0, p1, p2) := P in
  let '(q0, q1, q2) := Q in
  let '(a0, a1, a2) := Worker.axisRotate P (Worker.rot_mat alpha beta gamma) in
  let '(b0, b1, b2) := Worker.axisRotate Q (Worker.rot_mat alpha beta gamma) in
  a0 * b0 + a1 * b1 + a2 * b2 = p0 * q0 + p1 * q1 + p2 * q2.
Proof.
  destruct P as [[p0 p1] p2], Q as [[q0 q1] q2].
  unfold Worker.axisRotate, Worker.rot_mat.
  pose proof (sin_cos_unit alpha) as Ha.
  pose proof (sin_cos_unit beta) as Hb.
  pose proof (sin_cos_unit gamma) as Hg.
  generalize dependent (sin alpha); generalize dependent (cos alpha).
  generalize dependent (sin beta); generalize dependent (cos beta).
  generalize dependent (sin gamma); generalize dependent (cos gamma).
  intros cg sg Hg cb sb Hb ca sa Ha.
  nsatz.
Qed.

(** X7. Rotations about one axis compose by adding the angles, for each
    of the three angles, and the zero angles give the identity. *)
Theorem single_axis_rotations_compose (a1 a2 : R) (P : vec3) :
  Worker.axisRotate (Worker.axisRotate P (Worker.rot_mat a1 0 0)) (Worker.rot_mat a2 0 0)
  = Worker.axisRotate P (Worker.rot_mat (a1 + a2) 0 0)
  /\ Worker.axisRotate (Worker.axisRotate P (Worker.rot_mat 0 a1 0)) (Worker.rot_mat 0 a2 0)
     = Worker.axisRotate P (Worker.rot_mat 0 (a1 + a2) 0)
  /\ Worker.axisRotate (Worker.axisRotate P (Worker.rot_mat 0 0 a1)) (Worker.rot_mat 0 0 a2)
     = Worker.axisRotate P (Worker.rot_mat 0 0 (a1 + a2))
  /\ Worker.axisRotate P (Worker.rot_mat 0 0 0) = P.
Proof.
  destruct P as [[p0 p1] p2].
  unfold Worker.axisRotate, Worker.rot_mat.
  rewrite !cos_plus, !sin_plus, !cos_0, !sin_0.
  repeat split; pair_eq; ring.
Qed.

(** X14. The shader's rotation undoes the worker's: for the same angles,
    the product [computeRotationMatrix (angles) * v] applied to the point the
    worker has rotated gives the point back. *)
Theorem shader_rotation_undoes_worker (alpha beta gamma : R) (P : vec3) :
  Shader.mat3_mul_vec3 (Shader.computeRotationMatrix (alpha, beta, gamma))
    (Worker.axisRotate P (Worker.rot_mat alpha beta gamma)) = P.
Proof.
  rewrite shader_rotation_transposed, axisRotate_mat_mul, transpose_rot_mat.
  apply axisRotate_identity.
Qed.

(** * Further properties of the shader *)





Lemma vec4_within_add (lo hi lo' hi' : R) (a b : vec4) :
  vec4_within lo hi a -> vec4_within lo' hi' b ->
  vec4_within (lo + lo') (hi + hi') (Shader.vec4_add a b).
Proof.
  destruct a as [[[a0 a1] a2] a3], b as [[[b0 b1] b2] b3].
  unfold vec4_within, Shader.vec4_add. intros. repeat split; lra.
Qed.

(** A loop whose every step adds a colour with channels in [[lo, hi]] adds
    in total a colour with channels in [[n lo, n hi]], for [n] steps. *)
Lemma fold_add_within {A : Type} (step : vec4 -> A -> vec4) (lo hi : R) (l : list A) :
  (forall color a, exists s, step color a = Shader.vec4_add color s
                             /\ vec4_within lo hi s) ->
  forall acc,
    exists t, fold_left step l acc = Shader.vec4_add acc t
              /\ vec4_within (INR (length l) * lo) (INR (length l) * hi) t.
Proof.
  intros Hstep. induction l as [| a l IH]; intros acc.
  - exists (0, 0, 0, 0). split.
    + destruct acc as [[[a0 a1] a2] a3]. simpl. pair_eq; ring.
    + simpl. unfold vec4_within. repeat split; lra.
  - cbn [fold_left].
    destruct (Hstep acc a) as (s & -> & Hs).
    destruct (IH (Shader.vec4_add acc s)) as (t & -> & Ht).
    exists (Shader.vec4_add s t). split.
    + destruct acc as [[[a0 a1] a2] a3], s as [[[s0 s1] s2] s3], t as [[[t0 t1] t2] t3].
      simpl. pair_eq; ring.
    + change (length (a :: l)) with (S (length l)). rewrite S_INR.
      replace ((INR (length l) + 1) * lo) with (lo + INR (length l) * lo) by ring.
      replace ((INR (length l) + 1) * hi) with (hi + INR (length l) * hi) by ring.
      now apply vec4_within_add.
Qed.

(** X12. Supersampling stays within the range of the texture: if every
    channel of every texel colour lies in [[lo, hi]], so does every channel
    of the colour [sampleTexture] returns. *)
Theorem sampleTexture_within_range (u : Shader.Uniforms) (coord : vec2) (lo hi : R) :
  (forall p, vec4_within lo hi (Shader.uSampler u p)) ->
  vec4_within lo hi (Shader.sampleTexture u coord).
Proof.
  intros Htex. unfold Shader.sampleTexture.
  destruct coord as [cx cy]. destruct (Shader.uResolution u) as [resx resy].
  match goal with
  | |- context [fold_left ?f (seq 0 Shader.SAMPLES) (0, 0, 0, 0)] =>
      destruct (fold_add_within f (INR Shader.SAMPLES * lo) (INR Shader.SAMPLES * hi)
                  (seq 0 Shader.SAMPLES)) with (acc := (0, 0, 0, 0)) as (t & -> & Ht)
  end.
  - intros color i.
    match goal with
    | |- context [fold_left ?g (seq 0 Shader.SAMPLES) color] =>
        destruct (fold_add_within g lo hi (seq 0 Shader.SAMPLES)) with (acc := color)
          as (s & -> & Hs)
    end.
    + intros color' j. eexists. split; [reflexivity | apply Htex].
    + exists s. split; [reflexivity |]. now rewrite length_seq in Hs.
  - rewrite length_seq in Ht. unfold Shader.SAMPLES in *.
    rewrite !INR_IZR_INZ in *.
    change (Z.of_nat 8) with 8%Z in *. change (Z.of_nat (8 * 8)) with 64%Z.
    destruct t as [[[t0 t1] t2] t3].
    unfold vec4_within, Shader.vec4_add, Shader.vec4_div in *.
    repeat split; lra.
Qed.

Lemma sampleTexture_within_range_witness :
  vec4_within 0 1
    (Shader.sampleTexture
       (Shader.mkUniforms (fun _ => (1, 0, 0, 1)) (800, 600) 1 (0, 0, 0) (0.5, 0.5) 60)
       (0.25, 0.75)).
Proof.
  apply (sampleTexture_within_range
           (Shader.mkUniforms (fun _ => (1, 0, 0, 1)) (800, 600) 1 (0, 0, 0) (0.5, 0.5) 60)
           (0.25, 0.75) 0 1).
  intros p. simpl. unfold vec4_within. repeat split; lra.
Defined.

(** X13. The sample grid is not centred on the coordinate: the offsets
    [i / 8 - 0.5], [i = 0 .. 7], have the mean [- 1 / 16].  On a texture
    whose colour is an affine function of the coordinate, [sampleTexture]
    therefore returns the colour of the texture at the coordinate shifted by
    one sixteenth of an output pixel towards the origin on both axes. *)
Theorem sampleTexture_affine_bias (u : Shader.Uniforms) (coord : vec2)
    (base dx dy : vec4) :
  fst (Shader.uResolution u) <> 0 -> snd (Shader.uResolution u) <> 0 ->
  (forall p, Shader.uSampler u p = affine_texture base dx dy p) ->
  Shader.sampleTexture u coord
  = affine_texture base dx dy
      (fst coord - / 16 / fst (Shader.uResolution u),
       snd coord - / 16 / snd (Shader.uResolution u)).
Proof.
  intros _ _ Htex. unfold Shader.sampleTexture.
  destruct coord as [cx cy]. destruct (Shader.uResolution u) as [resx resy].
  unfold Shader.SAMPLES, Shader.STEP. cbn [seq fold_left fst snd].
  rewrite !Htex.
  destruct base as [[[b0 b1] b2] b3], dx as [[[x0 x1] x2] x3], dy as [[[y0 y1] y2] y3].
  unfold affine_texture, Shader.vec4_add, Shader.vec4_div, vec4_scale. cbn [fst snd].
  rewrite !INR_IZR_INZ.
  change (Z.of_nat (8 * 8)) with 64%Z.
  of_nat_values.
  replace 0.5 with (/ 2) by lra.
  unfold Rdiv. generalize (/ resx) (/ resy). intros ux uy.
  pair_eq; field.
Qed.

Lemma sampleTexture_affine_bias_witness :
  Shader.sampleTexture
    (Shader.mkUniforms (affine_texture (0, 0, 0, 1) (1, 0, 0, 0) (0, 1, 0, 0))
       (800, 600) 1 (0, 0, 0) (0.5, 0.5) 60)
    (0.25, 0.75)
  = affine_texture (0, 0, 0, 1) (1, 0, 0, 0) (0, 1, 0, 0)
      (0.25 - / 16 / 800, 0.75 - / 16 / 600).
Proof.
  apply (sampleTexture_affine_bias
           (Shader.mkUniforms (affine_texture (0, 0, 0, 1) (1, 0, 0, 0) (0, 1, 0, 0))
              (800, 600) 1 (0, 0, 0) (0.5, 0.5) 60)
           (0.25, 0.75) (0, 0, 0, 1) (1, 0, 0, 0) (0, 1, 0, 0)).
  - simpl. lra.
  - simpl. lra.
  - intros p. reflexivity.
Defined.

(** * The texture cache of the renderer *)

Lemma loadTexture_hit (src : string) (texture : nat) (r : Renderer.t) :
  Renderer.textureCache r !! src = Some texture ->
  Renderer.loadTexture src r = (texture, r).
Proof. intros H. unfold Renderer.loadTexture. now rewrite H. Qed.

Lemma loadTexture_lookup (src : string) (r : Renderer.t) :
  Renderer.textureCache (snd (Renderer.loadTexture src r)) !! src
  = Some (fst (Renderer.loadTexture src r)).
Proof.
  unfold Renderer.loadTexture.
  destruct (Renderer.textureCache r !! src) as [texture |] eqn:Hc; simpl.
  - exact Hc.
  - apply lookup_insert_eq.
Qed.

Lemma cache_inv_new : cache_inv Renderer.new.
Proof.
  unfold cache_inv, Renderer.new. simpl. repeat split.
  - intros H. set_solver.
  - intros [src H]. now rewrite lookup_empty in H.
  - intros texture H. set_solver.
  - intros H. set_solver.
  - intros [x H]. now rewrite lookup_empty in H.
  - constructor.
Qed.

Lemma cache_inv_loadTexture (src : string) (r : Renderer.t) :
  cache_inv r -> cache_inv (snd (Renderer.loadTexture src r)).
Proof.
  intros (Hlive & Hfresh & Hup & Hnd). unfold Renderer.loadTexture.
  destruct (Renderer.textureCache r !! src) as [texture |] eqn:Hc; simpl.
  { repeat split; try assumption; apply Hlive || apply Hup. }
  repeat split; simpl.
  - intros [Hin | Hin]%elem_of_union.
    + apply elem_of_singleton in Hin. subst. exists src. apply lookup_insert_eq.
    + apply Hlive in Hin as [s Hs]. exists s.
      rewrite lookup_insert_ne; [exact Hs |]. intros ->. congruence.
  - intros [s Hs]. apply elem_of_union.
    destruct (decide (src = s)) as [-> | Hne].
    + rewrite lookup_insert_eq in Hs. left. apply elem_of_singleton. congruence.
    + rewrite lookup_insert_ne in Hs by assumption. right. apply Hlive. eauto.
  - intros texture [Hin | Hin]%elem_of_union.
    + apply elem_of_singleton in Hin. lia.
    + apply Hfresh in Hin. lia.
  - intros [Hin | Hin]%elem_of_app.
    + apply Hup in Hin as [x Hx].
      destruct (decide (src = src0)) as [-> | Hne]; [congruence |].
      rewrite lookup_insert_ne by assumption. eauto.
    + apply list_elem_of_singleton in Hin. subst. rewrite lookup_insert_eq. eauto.
  - intros [x Hx]. apply elem_of_app.
    destruct (decide (src = src0)) as [-> | Hne].
    + right. now apply list_elem_of_singleton.
    + rewrite lookup_insert_ne in Hx by assumption. left. apply Hup. eauto.
  - apply NoDup_app. split; [assumption |]. split; [| apply NoDup_singleton].
    intros s Hs Hs'. apply list_elem_of_singleton in Hs'. subst.
    apply Hup in Hs as [x Hx]. congruence.
Qed.

Lemma cache_inv_loadAll (srcs : list string) (r : Renderer.t) :
  cache_inv r -> cache_inv (Renderer.loadAll srcs r).
Proof.
  revert r. induction srcs as [| src srcs IH]; intros r Hr; [exact Hr |].
  apply IH. now apply cache_inv_loadTexture.
Qed.

Lemma loadAll_keys (srcs : list string) (r : Renderer.t) (s : string) :
  is_Some (Renderer.textureCache (Renderer.loadAll srcs r) !! s) <->
  s ∈ srcs \/ is_Some (Renderer.textureCache r !! s).
Proof.
  revert r. induction srcs as [| src srcs IH]; intros r.
  - simpl. split; [now right | intros [H | H]; [set_solver | exact H]].
  - cbn [Renderer.loadAll fold_left]. fold (Renderer.loadAll srcs (snd (Renderer.loadTexture src r))).
    rewrite IH. unfold Renderer.loadTexture.
    destruct (Renderer.textureCache r !! src) as [texture |] eqn:Hc; simpl.
    + split.
      * intros [H | H]; [left; now right | now right].
      * intros [[-> | H]%elem_of_cons | H]; [right; rewrite Hc; eauto | now left | now right].
    + split.
      * intros [H | H]; [left; now right |].
        destruct (decide (src = s)) as [-> | Hne]; [left; now left |].
        rewrite lookup_insert_ne in H by assumption. now right.
      * intros [[-> | H]%elem_of_cons | H].
        -- right. rewrite lookup_insert_eq. eauto.
        -- now left.
        -- right. destruct (decide (src = s)) as [-> | Hne].
           ++ rewrite lookup_insert_eq. eauto.
           ++ now rewrite lookup_insert_ne.
Qed.

Lemma destroy_textures (l : list (string * nat)) (g : Renderer.GL) (texture : nat) :
  texture ∈ Renderer.textures
              (foldr (fun entry g => Renderer.deleteTexture (snd entry) g) g l) <->
  texture ∈ Renderer.textures g /\ ~ exists src, (src, texture) ∈ l.
Proof.
  induction l as [| [s x] l IH]; simpl.
  - split; [intros H; split; [exact H | intros [src Hs]; set_solver] | tauto].
  - rewrite elem_of_difference, IH, elem_of_singleton. split.
    + intros [[Hin Hno] Hne]. split; [exact Hin |].
      intros [src [Heq | Hs]%elem_of_cons]; [congruence | eauto].
    + intros [Hin Hno]. repeat split; [exact Hin | |].
      * intros [src Hs]. apply Hno. exists src. now right.
      * intros ->. apply Hno. exists s. now left.
Qed.

(** X15. A cached texture is reused: after [loadTexture] has returned a
    texture for an image source, the cache maps the source to that texture,
    and loading the same source again returns the same texture and changes
    nothing: no texture is created and no image is uploaded. *)
Theorem loadTexture_reuses_texture (src : string) (r : Renderer.t) :
  let '(texture, r') := Renderer.loadTexture src r in
  Renderer.textureCache r' !! src = Some texture
  /\ Renderer.loadTexture src r' = (texture, r').
Proof.
  pose proof (loadTexture_lookup src r) as Hl.
  destruct (Renderer.loadTexture src r) as [texture r']. simpl in Hl.
  split; [exact Hl | now apply loadTexture_hit].
Qed.

(** X16. No texture leaks: after any sequence of [loadTexture] calls on a
    new renderer, the live textures are the cached ones, and [destroy]
    leaves no live texture and an empty cache. *)
Theorem destroy_releases_every_texture (srcs : list string) :
  let r := Renderer.loadAll srcs Renderer.new in
  (forall texture, texture ∈ Renderer.textures (Renderer.gl r) <->
                   exists src, Renderer.textureCache r !! src = Some texture)
  /\ Renderer.textures (Renderer.gl (Renderer.destroy r)) = ∅
  /\ Renderer.textureCache (Renderer.destroy r) = ∅.
Proof.
  intros r.
  destruct (cache_inv_loadAll srcs Renderer.new cache_inv_new) as (Hlive & _).
  fold r in Hlive.
  split; [exact Hlive |]. split; [| reflexivity].
  apply set_eq. intros texture. unfold Renderer.destroy. cbn [Renderer.gl].
  rewrite destroy_textures. split; [| set_solver].
  intros [Hin Hno]. exfalso. apply Hno.
  apply Hlive in Hin as [src Hs]. exists src. now apply elem_of_map_to_list.
Qed.

(** X17. Every distinct image source is uploaded exactly once: after any
    sequence of [loadTexture] calls on a new renderer the list of uploaded
    sources has no duplicate and holds exactly the sources that were
    loaded, and the context has created one texture per upload. *)
Theorem each_image_uploaded_once (srcs : list string) :
  let r := Renderer.loadAll srcs Renderer.new in
  NoDup (Renderer.uploads (Renderer.gl r))
  /\ (forall src, src ∈ Renderer.uploads (Renderer.gl r) <-> src ∈ srcs)
  /\ Renderer.created (Renderer.gl r) = length (Renderer.uploads (Renderer.gl r)).
Proof.
  intros r.
  destruct (cache_inv_loadAll srcs Renderer.new cache_inv_new) as (_ & _ & Hup & Hnd).
  fold r in Hup, Hnd.
  split; [exact Hnd |]. split.
  - intros src. rewrite Hup. unfold r. rewrite loadAll_keys.
    unfold Renderer.new at 1. cbn [Renderer.textureCache].
    split; [intros [H | [x H]]; [exact H | now rewrite lookup_empty in H] | now left].
  - unfold r. clear.
    assert (forall r0, Renderer.created (Renderer.gl r0)
                       = length (Renderer.uploads (Renderer.gl r0)) ->
                       Renderer.created (Renderer.gl (Renderer.loadAll srcs r0))
                       = length (Renderer.uploads (Renderer.gl (Renderer.loadAll srcs r0))))
      as Hgen.
    { induction srcs as [| src srcs IH]; intros r0 H0; [exact H0 |].
      apply IH. unfold Renderer.loadTexture.
      destruct (Renderer.textureCache r0 !! src); simpl; [exact H0 |].
      rewrite length_app. simpl. lia. }
    apply Hgen. reflexivity.
Qed.

(** * [throttle] *)

Lemma throttle_step_inv {A : Type} (st : Throttle.state A) (e : Throttle.event A) :
  Throttle.timers st = (if Throttle.inThrottle st then 1 else 0)%nat ->
  let st' := Throttle.step st e in
  Throttle.timers st' = (if Throttle.inThrottle st' then 1 else 0)%nat
  /\ (length (Throttle.applied st') + (if Throttle.inThrottle st then 1 else 0)
      <= length (Throttle.applied st) + (if Throttle.inThrottle st' then 1 else 0)
         + match e with Throttle.Timeout => 1 | Throttle.Call _ => 0 end)%nat
  /\ (length (Throttle.applied st) <= length (Throttle.applied st'))%nat.
Proof.
  intros Hinv. destruct st as [b n l]. simpl in Hinv.
  destruct e as [args |]; simpl.
  - unfold Throttle.call. simpl. destruct b; simpl; subst n.
    + repeat split; lia.
    + rewrite length_app. simpl. repeat split; lia.
  - unfold Throttle.timeout. simpl. destruct b; subst n; simpl; repeat split; lia.
Qed.

Lemma throttle_run_inv {A : Type} (events : list (Throttle.event A)) (st : Throttle.state A) :
  Throttle.timers st = (if Throttle.inThrottle st then 1 else 0)%nat ->
  let st' := Throttle.run events st in
  Throttle.timers st' = (if Throttle.inThrottle st' then 1 else 0)%nat
  /\ (length (Throttle.applied st') + (if Throttle.inThrottle st then 1 else 0)
      <= length (Throttle.applied st) + (if Throttle.inThrottle st' then 1 else 0)
         + Throttle.timeouts events)%nat.
Proof.
  revert st. induction events as [| e events IH]; intros st Hinv.
  - simpl. split; [exact Hinv | unfold Throttle.timeouts; simpl; lia].
  - destruct (throttle_step_inv st e Hinv) as (Hinv' & Hstep & _).
    destruct (IH (Throttle.step st e) Hinv') as (Hfin & Hrun).
    cbn [Throttle.run fold_left]. fold (Throttle.run events (Throttle.step st e)).
    split; [exact Hfin |].
    assert (Throttle.timeouts (e :: events)
            = match e with Throttle.Timeout => 1 | Throttle.Call _ => 0 end
              + Throttle.timeouts events)%nat as ->.
    { unfold Throttle.timeouts. cbn [flat_map]. rewrite length_app. now destruct e. }
    lia.
Qed.

Lemma throttle_applied_sublist {A : Type} (events : list (Throttle.event A))
    (st : Throttle.state A) :
  exists l, Throttle.applied (Throttle.run events st) = Throttle.applied st ++ l
            /\ sublist l (Throttle.calls events).
Proof.
  revert st. induction events as [| e events IH]; intros st.
  - exists []. simpl. split; [now rewrite app_nil_r | constructor].
  - cbn [Throttle.run fold_left]. fold (Throttle.run events (Throttle.step st e)).
    destruct (IH (Throttle.step st e)) as (l & -> & Hl).
    destruct e as [args |]; cbn [Throttle.calls flat_map Throttle.step].
    + unfold Throttle.call. destruct (Throttle.inThrottle st); simpl.
      * exists l. split; [reflexivity |]. now apply sublist_cons.
      * exists (args :: l). split; [now rewrite <- app_assoc |]. now apply sublist_skip.
    + exists l. split; [| exact Hl].
      unfold Throttle.timeout. destruct (Throttle.timers st); reflexivity.
Qed.

(** X18. [throttle] is a leading-edge throttle that drops calls.  For any
    sequence of calls and timeouts after its creation: at most one timeout is
    pending, and one is pending exactly while the flag is set; [func] has run
    at most once more than timeouts have fired; the arguments it has run on
    are a subsequence of the arguments of the calls, in order; a first call
    always runs [func]; and a call that directly follows another call has no
    effect. *)
Theorem throttle_limits_calls {A : Type} (events : list (Throttle.event A))
    (a b : A) (st : Throttle.state A) :
  let final := Throttle.run events Throttle.init in
  Throttle.timers final = (if Throttle.inThrottle final then 1 else 0)%nat
  /\ (length (Throttle.applied final) <= S (Throttle.timeouts events))%nat
  /\ sublist (Throttle.applied final) (Throttle.calls events)
  /\ (exists rest,
        Throttle.applied (Throttle.run (Throttle.Call a :: events) Throttle.init)
        = a :: rest)
  /\ Throttle.call b (Throttle.call a st) = Throttle.call a st.
Proof.
  intros final.
  destruct (throttle_run_inv events (@Throttle.init A) eq_refl) as (Hinv & Hcount).
  fold final in Hinv, Hcount.
  destruct (throttle_applied_sublist events (@Throttle.init A)) as (l & Hl & Hsub).
  fold final in Hl. simpl in Hl, Hcount.
  split; [exact Hinv |]. split; [destruct (Throttle.inThrottle final); lia |].
  split; [now rewrite Hl |]. split.
  - cbn [Throttle.run fold_left Throttle.step].
    destruct (throttle_applied_sublist events (Throttle.call a (@Throttle.init A)))
      as (l' & Hl' & _).
    unfold Throttle.run in Hl'. rewrite Hl'. eexists. reflexivity.
  - unfold Throttle.call. destruct (Throttle.inThrottle st) eqn:Hb; simpl.
    + now rewrite Hb.
    + reflexivity.
Qed.

(** * The page of the worker *)

(** One request under way exactly while [isProcessing] is set; the posted
    requests are at least one frame interval apart, the newest at
    [lastRenderTime]. *)
Lemma workerPage_step_inv (st : WorkerPage.state) (e : WorkerPage.event) :
  WorkerPage.outstanding st = (if WorkerPage.isProcessing st then 1 else 0)%nat ->
  Sorted (fun newer older => older + WorkerPage.frameInterval <= newer)
    (WorkerPage.posted st) ->
  HdRel (fun newer older => older <= newer) (WorkerPage.lastRenderTime st)
    (WorkerPage.posted st) ->
  let st' := WorkerPage.step st e in
  WorkerPage.outstanding st' = (if WorkerPage.isProcessing st' then 1 else 0)%nat
  /\ Sorted (fun newer older => older + WorkerPage.frameInterval <= newer)
       (WorkerPage.posted st')
  /\ HdRel (fun newer older => older <= newer) (WorkerPage.lastRenderTime st')
       (WorkerPage.posted st').
Proof.
  intros Hout Hsorted Hhd. destruct st as [proc img last frames posted out].
  simpl in *. destruct e as [t | | |]; simpl.
  - unfold WorkerPage.updateProjection. simpl.
    destruct (Rlt_dec (t - last) WorkerPage.frameInterval) as [Hlt | Hge]; simpl;
      [now repeat split |].
    destruct (proc || negb img) eqn:Hb; simpl; [now repeat split |].
    apply orb_false_iff in Hb as [-> _]. subst out.
    split; [reflexivity |]. split.
    + constructor; [assumption |].
      destruct Hhd as [| b l Hb]; constructor. lra.
    + constructor. lra.
  - unfold WorkerPage.onDone. simpl. destruct out as [| n]; simpl; [now repeat split |].
    destruct proc; [| discriminate]. injection Hout as ->. now repeat split.
  - now repeat split.
  - now repeat split.
Qed.

Lemma workerPage_run_inv (events : list WorkerPage.event) :
  let st := WorkerPage.run events in
  WorkerPage.outstanding st = (if WorkerPage.isProcessing st then 1 else 0)%nat
  /\ Sorted (fun newer older => older + WorkerPage.frameInterval <= newer)
       (WorkerPage.posted st)
  /\ HdRel (fun newer older => older <= newer) (WorkerPage.lastRenderTime st)
       (WorkerPage.posted st).
Proof.
  unfold WorkerPage.run.
  induction events as [| e events IH] using rev_ind.
  - simpl. repeat split; constructor.
  - rewrite fold_left_app. cbn [fold_left].
    destruct IH as (H1 & H2 & H3). now apply workerPage_step_inv.
Qed.

(** X19. The page never has two requests under way: after any sequence of
    updates, worker messages and image loads, at most one posted request is
    unanswered, and one is unanswered exactly while [isProcessing] is set;
    two successive requests are posted at least [1000 / 30] ms apart; and
    without image data no request is posted. *)
Theorem one_request_at_a_time (events : list WorkerPage.event) (currentTime : R)
    (st : WorkerPage.state) :
  let final := WorkerPage.run events in
  (WorkerPage.outstanding final <= 1)%nat
  /\ (WorkerPage.isProcessing final = true <-> WorkerPage.outstanding final = 1%nat)
  /\ Sorted (fun newer older => older + 1000 / 30 <= newer) (WorkerPage.posted final)
  /\ (WorkerPage.cachedImageData st = false ->
      WorkerPage.posted (WorkerPage.updateProjection currentTime st)
      = WorkerPage.posted st)
  /\ (WorkerPage.isProcessing st = true ->
      WorkerPage.posted (WorkerPage.updateProjection currentTime st)
      = WorkerPage.posted st).
Proof.
  intros final.
  destruct (workerPage_run_inv events) as (Hout & Hsorted & _). fold final in Hout, Hsorted.
  split; [destruct (WorkerPage.isProcessing final); lia |].
  split; [destruct (WorkerPage.isProcessing final); rewrite Hout; split; (lia || easy) |].
  split; [exact Hsorted |].
  split; intros Hst; unfold WorkerPage.updateProjection;
    destruct (Rlt_dec _ _); try reflexivity; rewrite Hst; simpl;
    rewrite ?orb_true_r; reflexivity.
Qed.

Lemma one_request_at_a_time_witness :
  let final := WorkerPage.run [WorkerPage.ImageLoaded; WorkerPage.Update 50] in
  (WorkerPage.outstanding final <= 1)%nat
  /\ (WorkerPage.isProcessing final = true <-> WorkerPage.outstanding final = 1%nat)
  /\ Sorted (fun newer older => older + 1000 / 30 <= newer) (WorkerPage.posted final)
  /\ (WorkerPage.cachedImageData WorkerPage.init = false ->
      WorkerPage.posted (WorkerPage.updateProjection 50 WorkerPage.init)
      = WorkerPage.posted WorkerPage.init)
  /\ (WorkerPage.isProcessing WorkerPage.init = true ->
      WorkerPage.posted (WorkerPage.updateProjection 50 WorkerPage.init)
      = WorkerPage.posted WorkerPage.init).
Proof.
  exact (one_request_at_a_time [WorkerPage.ImageLoaded; WorkerPage.Update 50] 50
           WorkerPage.init).
Defined.

(** * The adjust buttons *)

Lemma clampToRange_cases (min max value : R) :
  min <= max ->
  (value <= min /\ clampToRange min max value = min)
  \/ (min <= value <= max /\ clampToRange min max value = value)
  \/ (max <= value /\ clampToRange min max value = max).
Proof.
  intros Hle. unfold clampToRange, Rmin.
  destruct (Rle_dec max value); unfold Rmax; destruct (Rle_dec min _); lra.
Qed.

(** X20. The value an adjust button writes stays in the range of the
    slider: for [min <= max] it lies in [[min, max]], it is the sum
    [value + adjust] when that is in the range and the nearer bound when it
    is not, and pressing again at a bound leaves the bound. *)
Theorem startAdjust_in_range (min max value adjust : R) :
  min <= max ->
  min <= startAdjust min max value adjust <= max
  /\ (min <= value + adjust <= max ->
      startAdjust min max value adjust = value + adjust)
  /\ (max <= value + adjust -> startAdjust min max value adjust = max)
  /\ (value + adjust <= min -> startAdjust min max value adjust = min)
  /\ (0 <= adjust -> startAdjust min max max adjust = max)
  /\ (adjust <= 0 -> startAdjust min max min adjust = min).
Proof.
  intros Hle. unfold startAdjust.
  pose proof (clampToRange_cases min max (value + adjust) Hle) as H1.
  pose proof (clampToRange_cases min max (max + adjust) Hle) as H2.
  pose proof (clampToRange_cases min max (min + adjust) Hle) as H3.
  repeat split; intros; lra.
Qed.

Lemma startAdjust_in_range_witness :
  0 <= startAdjust 0 2 1.95 0.1 <= 2
  /\ (0 <= 1.95 + 0.1 <= 2 -> startAdjust 0 2 1.95 0.1 = 1.95 + 0.1)
  /\ (2 <= 1.95 + 0.1 -> startAdjust 0 2 1.95 0.1 = 2)
  /\ (1.95 + 0.1 <= 0 -> startAdjust 0 2 1.95 0.1 = 0)
  /\ (0 <= 0.1 -> startAdjust 0 2 2 0.1 = 2)
  /\ (0.1 <= 0 -> startAdjust 0 2 0 0.1 = 0).
Proof.
  apply (startAdjust_in_range 0 2 1.95 0.1). lra.
Defined.

(** * The page of the renderer *)

Lemma filter_filter_keep {A : Type} (P Q : A -> Prop)
    `{!forall x, Decision (P x)} `{!forall x, Decision (Q x)} (l : list A) :
  (forall x, x ∈ l -> P x -> Q x) -> filter P (filter Q l) = filter P l.
Proof.
  induction l as [| a l IH]; intros Hall; [reflexivity |].
  assert (filter P (filter Q l) = filter P l) as IH'
    by (apply IH; intros x Hx; apply Hall; now right).
  rewrite (filter_cons Q). destruct (decide (Q a)) as [Hq | Hq].
  - rewrite !filter_cons. destruct (decide (P a)); now rewrite IH'.
  - rewrite IH'. rewrite filter_cons. destruct (decide (P a)) as [Hp | Hp]; [| reflexivity].
    exfalso. apply Hq, Hall; [now left | assumption].
Qed.

Lemma filter_none {A : Type} (P : A -> Prop) `{!forall x, Decision (P x)} (l : list A) :
  (forall x, x ∈ l -> ~ P x) -> filter P l = [].
Proof.
  intros Hall. apply elem_of_nil_inv.
  intros x [Hp Hx]%list_elem_of_filter. exact (Hall x Hx Hp).
Qed.

Lemma filter_filter_drop {A : Type} (P Q : A -> Prop)
    `{!forall x, Decision (P x)} `{!forall x, Decision (Q x)} (l : list A) :
  (forall x, x ∈ l -> P x -> ~ Q x) -> filter P (filter Q l) = [].
Proof.
  intros Hall. apply filter_none.
  intros x [Hq Hx]%list_elem_of_filter Hp. exact (Hall x Hx Hp Hq).
Qed.

Lemma page_inv_init : page_inv Page.init.
Proof.
  unfold page_inv, page_core, Page.init, Page.pending. simpl.
  repeat split; try (intros f Hf; now apply elem_of_nil in Hf); try discriminate; lia.
Qed.

Lemma page_core_requestUpdate (st : Page.state) :
  page_core st ->
  page_core (Page.requestUpdate st)
  /\ Page.pending Page.SliderFrame (Page.requestUpdate st)
     = Page.pending Page.SliderFrame st
  /\ Page.rafPending (Page.requestUpdate st) = Page.rafPending st
  /\ Page.renders (Page.requestUpdate st) = Page.renders st.
Proof.
  intros (Hproc & Hpend & Hlt & Hupd & Hsl & Hid & HnU).
  unfold Page.requestUpdate. rewrite Hproc.
  destruct st as [proc pend anim raf img frames next renders]. simpl in *.
  set (frames' := match anim with
                  | Some id => filter (fun f => fst f <> id) frames
                  | None => frames
                  end).
  assert (forall f, f ∈ frames' -> f ∈ frames) as Hsub.
  { unfold frames'. destruct anim; [| tauto]. intros f Hf.
    now apply list_elem_of_filter in Hf. }
  assert (filter (fun f => snd f = Page.UpdateProjection) frames' = []) as HU.
  { unfold frames'. destruct anim as [id |].
    - apply filter_filter_drop. intros f Hf Hs Hne. apply Hne.
      specialize (Hupd f Hf Hs). congruence.
    - apply filter_none. intros f Hf Hs. specialize (Hupd f Hf Hs). discriminate. }
  assert (filter (fun f => snd f = Page.SliderFrame) frames'
          = filter (fun f => snd f = Page.SliderFrame) frames) as HS.
  { unfold frames'. destruct anim as [id |]; [| reflexivity].
    apply filter_filter_keep. intros f Hf Hs Heq. apply (Hsl f Hf Hs). congruence. }
  replace (match anim with
           | Some id => Page.cancelAnimationFrame id
                          (Page.mkState proc pend anim raf img frames next renders)
           | None => Page.mkState proc pend anim raf img frames next renders
           end)
    with (Page.mkState proc pend anim raf img frames' next renders)
    by (unfold frames'; destruct anim; reflexivity).
  unfold Page.requestAnimationFrame, Page.set_animationFrameId, page_core, Page.pending.
  simpl. repeat split; try reflexivity; try assumption.
  - intros f [Hf | Hf]%elem_of_app.
    + apply Hsub, Hlt in Hf. lia.
    + apply list_elem_of_singleton in Hf. subst f. simpl. lia.
  - intros f [Hf | Hf]%elem_of_app Hs.
    + exfalso. assert (f ∈ filter (fun f => snd f = Page.UpdateProjection) frames') as Hin
        by (apply list_elem_of_filter; tauto).
      rewrite HU in Hin. now apply elem_of_nil in Hin.
    + apply list_elem_of_singleton in Hf. now subst f.
  - intros f [Hf | Hf]%elem_of_app Hs.
    + apply Hsub, Hlt in Hf. intros [= Heq]. lia.
    + apply list_elem_of_singleton in Hf. subst f. discriminate.
  - intros id [= <-]. lia.
  - rewrite filter_app, HU. rewrite filter_cons_True by reflexivity. simpl. lia.
  - rewrite filter_app, HS. rewrite filter_cons_False by (simpl; discriminate).
    now rewrite filter_nil, app_nil_r.
Qed.

Lemma page_inv_requestUpdate (st : Page.state) :
  page_inv st ->
  page_inv (Page.requestUpdate st)
  /\ Page.renders (Page.requestUpdate st) = Page.renders st.
Proof.
  intros [Hcore HnS].
  destruct (page_core_requestUpdate st Hcore) as (Hcore' & HS & Hraf & Hren).
  split; [| exact Hren]. split; [exact Hcore' |]. now rewrite HS, Hraf.
Qed.

Lemma page_inv_set_imgComplete (b : bool) (st : Page.state) :
  page_inv st -> page_inv (Page.set_imgComplete b st).
Proof. intros H. exact H. Qed.

Lemma page_inv_handleSliderChange (st : Page.state) :
  page_inv st ->
  page_inv (Page.handleSliderChange st)
  /\ Page.renders (Page.handleSliderChange st) = Page.renders st.
Proof.
  intros ((Hproc & Hpend & Hlt & Hupd & Hsl & Hid & HnU) & HnS).
  unfold Page.handleSliderChange.
  destruct st as [proc pend anim raf img frames next renders]. simpl in *.
  destruct raf; simpl.
  { split; [| reflexivity]. unfold page_inv, page_core. simpl. tauto. }
  split; [| reflexivity].
  unfold page_inv, page_core, Page.pending in *. simpl in *.
  repeat split; try assumption.
  - intros f [Hf | Hf]%elem_of_app.
    + apply Hlt in Hf. lia.
    + apply list_elem_of_singleton in Hf. subst f. simpl. lia.
  - intros f [Hf | Hf]%elem_of_app Hs.
    + now apply Hupd.
    + apply list_elem_of_singleton in Hf. subst f. discriminate.
  - intros f [Hf | Hf]%elem_of_app Hs.
    + now apply Hsl.
    + apply list_elem_of_singleton in Hf. subst f. simpl.
      intros Heq. apply Hid in Heq. lia.
  - intros id Heq. apply Hid in Heq. lia.
  - rewrite filter_app, filter_cons_False by (simpl; discriminate).
    now rewrite filter_nil, app_nil_r.
  - rewrite filter_app, filter_cons_True by reflexivity.
    rewrite length_app, HnS. reflexivity.
Qed.

Lemma length_le_1_same {A : Type} (l : list A) (x y : A) :
  (length l <= 1)%nat -> x ∈ l -> y ∈ l -> x = y.
Proof.
  destruct l as [| a [| b l]]; simpl; intros Hlen Hx Hy; try lia.
  - now apply elem_of_nil in Hx.
  - apply list_elem_of_singleton in Hx, Hy. congruence.
Qed.

Lemma page_inv_frame (id : nat) (st : Page.state) :
  page_inv st ->
  page_inv (Page.step st (Page.Frame id))
  /\ (Page.renders (Page.step st (Page.Frame id)) <= S (Page.renders st))%nat.
Proof.
  intros Hinv. pose proof Hinv as ((Hproc & Hpend & Hlt & Hupd & Hsl & Hid & HnU) & HnS).
  cbn [Page.step].
  destruct (list_find (fun f => fst f = id) (Page.frames st)) as [[i [id' cb]] |] eqn:Hfind;
    [| split; [exact Hinv | lia]].
  apply list_find_Some in Hfind as (Hlook & Hfst & _). simpl in Hfst. subst id'.
  apply list_elem_of_lookup_2 in Hlook.
  destruct st as [proc pend anim raf img frames next renders].
  unfold Page.pending in *. simpl in *. subst proc pend.
  set (frames' := filter (fun f => fst f <> id) frames).
  assert (forall f, f ∈ frames' -> f ∈ frames) as Hsub
    by (intros f Hf; now apply list_elem_of_filter in Hf).
  destruct cb.
  - pose proof (Hupd _ Hlook eq_refl) as Hanim. simpl in Hanim. subst anim.
    assert (filter (fun f => snd f = Page.UpdateProjection) frames' = []) as HU.
    { apply filter_filter_drop. intros f Hf Hs Hne. apply Hne.
      specialize (Hupd f Hf Hs). congruence. }
    assert (filter (fun f => snd f = Page.SliderFrame) frames'
            = filter (fun f => snd f = Page.SliderFrame) frames) as HS.
    { apply filter_filter_keep. intros f Hf Hs Heq. apply (Hsl f Hf Hs). congruence. }
    cbn [Page.runCallback]. unfold Page.updateProjection. simpl.
    destruct img; simpl; (split; [| lia]);
      unfold page_inv, page_core, Page.pending; simpl; fold frames';
      rewrite HU, HS;
      (repeat split; try reflexivity; try assumption;
       [ intros f Hf; now apply Hlt, Hsub
       | intros f Hf Hs; now apply Hupd; [apply Hsub |]
       | intros f Hf Hs; now apply Hsl; [apply Hsub |]
       | simpl; lia ]).
  - assert (raf = true) as ->.
    { destruct raf; [reflexivity |]. exfalso.
      assert ((id, Page.SliderFrame) ∈ filter (fun f => snd f = Page.SliderFrame) frames)
        as Hin by (apply list_elem_of_filter; tauto).
      apply length_zero_iff_nil in HnS. rewrite HnS in Hin. now apply elem_of_nil in Hin. }
    assert (filter (fun f => snd f = Page.SliderFrame) frames' = []) as HS.
    { apply filter_filter_drop. intros f Hf Hs Hne. apply Hne.
      assert (f = (id, Page.SliderFrame)) as ->; [| reflexivity].
      apply (length_le_1_same (filter (fun f => snd f = Page.SliderFrame) frames));
        [lia | |]; apply list_elem_of_filter; tauto. }
    assert (filter (fun f => snd f = Page.UpdateProjection) frames'
            = filter (fun f => snd f = Page.UpdateProjection) frames) as HU.
    { apply filter_filter_keep. intros f Hf Hs Heq.
      apply (Hsl _ Hlook eq_refl). rewrite (Hupd f Hf Hs). simpl. congruence. }
    cbn [Page.runCallback].
    set (st1 := Page.mkState false false anim true img frames' next renders).
    assert (page_core st1) as Hcore1.
    { unfold page_core, Page.pending, st1. simpl.
      repeat split; try reflexivity; try assumption.
      - intros f Hf. now apply Hlt, Hsub.
      - intros f Hf Hs. now apply Hupd; [apply Hsub |].
      - intros f Hf Hs. now apply Hsl; [apply Hsub |].
      - rewrite HU. exact HnU. }
    destruct (page_core_requestUpdate st1 Hcore1) as (Hcore2 & HS2 & _ & Hren).
    split.
    + split; [exact Hcore2 |].
      change (length (Page.pending Page.SliderFrame (Page.requestUpdate st1)) = 0%nat).
      rewrite HS2. unfold Page.pending, st1. simpl. now rewrite HS.
    + change (Page.renders (Page.requestUpdate st1) <= S renders)%nat.
      rewrite Hren. simpl. lia.
Qed.

Lemma page_inv_step (st : Page.state) (e : Page.event) :
  page_inv st ->
  page_inv (Page.step st e)
  /\ (Page.renders (Page.step st e)
      <= Page.renders st + match e with Page.Frame _ => 1 | _ => 0 end)%nat.
Proof.
  intros Hinv. destruct e as [| | | | | id].
  - destruct (page_inv_handleSliderChange st Hinv) as [H1 H2].
    split; [exact H1 | cbn [Page.step]; lia].
  - destruct (page_inv_requestUpdate (Page.set_imgComplete true st)) as [H1 H2];
      [exact Hinv |].
    split; [exact H1 | cbn [Page.step]; rewrite H2; simpl; lia].
  - split; [exact Hinv | simpl; lia].
  - split; [exact Hinv | simpl; lia].
  - destruct (page_inv_requestUpdate st Hinv) as [H1 H2].
    split; [exact H1 | cbn [Page.step]; lia].
  - destruct (page_inv_frame id st Hinv) as [H1 H2]. split; [exact H1 | lia].
Qed.

Lemma page_inv_run (events : list Page.event) :
  page_inv (Page.run events)
  /\ (Page.renders (Page.run events) <= Page.frameEvents events)%nat.
Proof.
  unfold Page.run, Page.frameEvents.
  induction events as [| e events IH] using rev_ind.
  - split; [exact page_inv_init | simpl; lia].
  - rewrite fold_left_app, flat_map_app, length_app. cbn [fold_left].
    destruct IH as [Hinv Hren].
    destruct (page_inv_step (fold_left Page.step events Page.init) e Hinv) as [H1 H2].
    split; [exact H1 |]. destruct e; simpl in *; lia.
Qed.

Lemma frames_by_callback (l : list (nat * Page.callback)) :
  length l
  = (length (filter (fun f => snd f = Page.UpdateProjection) l)
     + length (filter (fun f => snd f = Page.SliderFrame) l))%nat.
Proof.
  induction l as [| [id cb] l IH]; [reflexivity |].
  rewrite !filter_cons. cbn [snd].
  destruct cb;
    repeat match goal with
           | |- context [decide ?P] => destruct (decide P)
           end; try discriminate; try congruence; simpl; lia.
Qed.

(** X21. Updates are coalesced.  After any sequence of slider inputs,
    image loads, resizes and animation frames: [isProcessing] and
    [pendingUpdate] are false (the rendering is synchronous, so the deferred
    path of [requestUpdate] is never taken); at most one frame that runs
    [updateProjection] is requested, and its handle is [animationFrameId]; a
    frame of [handleSliderChange] is requested exactly while [rafPending] is
    set; at most two frames are requested in all; and [render] has been
    called at most once per animation frame run. *)
Theorem page_updates_coalesced (events : list Page.event) :
  let st := Page.run events in
  Page.isProcessing st = false
  /\ Page.pendingUpdate st = false
  /\ (length (Page.pending Page.UpdateProjection st) <= 1)%nat
  /\ (forall f, f ∈ Page.pending Page.UpdateProjection st ->
                Page.animationFrameId st = Some (fst f))
  /\ length (Page.pending Page.SliderFrame st)
     = (if Page.rafPending st then 1 else 0)%nat
  /\ (length (Page.frames st) <= 2)%nat
  /\ (Page.renders st <= Page.frameEvents events)%nat.
Proof.
  intros st.
  destruct (page_inv_run events) as [((Hproc & Hpend & _ & Hupd & _ & _ & HnU) & HnS) Hren].
  fold st in Hproc, Hpend, Hupd, HnU, HnS, Hren.
  repeat split; try assumption.
  - intros f [Hs Hf]%list_elem_of_filter. now apply Hupd.
  - rewrite frames_by_callback. unfold Page.pending in HnU, HnS.
    rewrite HnS. destruct (Page.rafPending st); lia.
Qed.

(** * The shader program *)

(** X22. Errors of the shader program, on the context of a new renderer.
    [initShaderProgram] returns a program exactly when both shaders compile
    and the program links.  When the vertex shader does not compile, the
    shader object is deleted and the error carries its info log.  When only
    the fragment shader does not compile, its object is deleted but the
    vertex shader stays alive.  When the link fails, both shaders and the
    program stay alive. *)
Theorem initShaderProgram_errors (vs_status fs_status link_status : bool)
    (vs_info fs_info : string) :
  let '(outcome, g) :=
    Program.initShaderProgram vs_status vs_info fs_status fs_info link_status
      Program.fresh in
  ((exists program, outcome = Program.Ok program) <->
   vs_status = true /\ fs_status = true /\ link_status = true)
  /\ (vs_status = false ->
      outcome = Program.Throw ("Shader compilation failed: " ++ vs_info)
      /\ Program.shaders g = ∅ /\ Program.programs g = ∅)
  /\ (vs_status = true -> fs_status = false ->
      outcome = Program.Throw ("Shader compilation failed: " ++ fs_info)
      /\ Program.shaders g = {[0%nat]} /\ Program.programs g = ∅)
  /\ (vs_status = true -> fs_status = true -> link_status = false ->
      outcome = Program.Throw "Shader program initialization failed"
      /\ Program.shaders g = {[0%nat; 1%nat]} /\ Program.programs g = {[2%nat]})
  /\ (vs_status = true -> fs_status = true -> link_status = true ->
      outcome = Program.Ok 2%nat
      /\ Program.shaders g = {[0%nat; 1%nat]} /\ Program.programs g = {[2%nat]}).
Proof.
  unfold Program.initShaderProgram, Program.compileShader, Program.createShader,
    Program.createProgram, Program.deleteShader, Program.fresh.
  destruct vs_status, fs_status, link_status; simpl;
    (split; [split; [intros [program H]; (discriminate || tauto)
                    | intros (H1 & H2 & H3); (discriminate || eauto)] |]);
    repeat split; intros; try discriminate; try reflexivity; set_solver.
Qed.

Lemma initShaderProgram_errors_witness :
  let '(outcome, g) :=
    Program.initShaderProgram true "no log" false "syntax error" true Program.fresh in
  ((exists program, outcome = Program.Ok program) <->
   true = true /\ false = true /\ true = true)
  /\ (true = false ->
      outcome = Program.Throw ("Shader compilation failed: " ++ "no log")
      /\ Program.shaders g = ∅ /\ Program.programs g = ∅)
  /\ (true = true -> false = false ->
      outcome = Program.Throw ("Shader compilation failed: " ++ "syntax error")
      /\ Program.shaders g = {[0%nat]} /\ Program.programs g = ∅)
  /\ (true = true -> false = true -> true = false ->
      outcome = Program.Throw "Shader program initialization failed"
      /\ Program.shaders g = {[0%nat; 1%nat]} /\ Program.programs g = {[2%nat]})
  /\ (true = true -> false = true -> true = true ->
      outcome = Program.Ok 2%nat
      /\ Program.shaders g = {[0%nat; 1%nat]} /\ Program.programs g = {[2%nat]}).
Proof.
  exact (initShaderProgram_errors true false true "no log" "syntax error").
Defined.
